(** * The realtime presence and messaging layer of AXL_MUSIC_NET

    A shallow embedding of [backend/src/lib/socket.js] ([initializeSocket])
    and the properties of its event handlers.

    The file is organised as the source is: the two registries
    ([userSockets], [userActivities]) are JavaScript [Map]s closed over by
    every handler; each [socket.on(name, ...)] callback becomes one
    definition [on_name] written in a small handler monad that threads the
    registries and collects the events handed to socket.io. *)

From Stdlib Require Import String List Bool Arith Lia.
Import ListNotations.
Local Open Scope string_scope.
Local Open Scope list_scope.

(** ** JavaScript values used by the handlers

    Identities, socket ids and activity labels are JavaScript strings.  The
    only falsy string is the empty one, and [undefined] (a failed [Map.get],
    an unassigned [let]) is falsy. *)

Definition UserId := string.
Definition SocketId := string.
Definition Activity := string.

Definition truthy (s : string) : bool := negb (s =? "").

Definition truthy_opt (v : option string) : bool :=
  match v with
  | Some s => truthy s
  | None => false
  end.

(** ** [Map] with string keys

    A JavaScript [Map] iterates in insertion order, [set] on a present key
    keeps the key's position, and [delete] removes the entry.  The scan of
    the [disconnect] handler and [Array.from(map.keys())] both observe that
    order, so the map is an association list. *)

Module JsMap.

Definition t (V : Type) := list (string * V).

Definition empty {V : Type} : t V := [].

Fixpoint get {V : Type} (k : string) (m : t V) : option V :=
  match m with
  | [] => None
  | (k', v) :: m' => if k' =? k then Some v else get k m'
  end.

Fixpoint set {V : Type} (k : string) (v : V) (m : t V) : t V :=
  match m with
  | [] => [(k, v)]
  | (k', v') :: m' =>
      if k' =? k then (k, v) :: m' else (k', v') :: set k v m'
  end.

Fixpoint delete {V : Type} (k : string) (m : t V) : t V :=
  match m with
  | [] => []
  | (k', v') :: m' => if k' =? k then m' else (k', v') :: delete k m'
  end.

Definition keys {V : Type} (m : t V) : list string := map fst m.

Definition entries {V : Type} (m : t V) : list (string * V) := m.

End JsMap.

(** ** Payloads *)

(** Modelled from the spec: the [Message] document that
    [models/message.model.js] (not among the sources) persists; the fields
    are those of the data model, section 3. *)
Module Message.
Record t := mk {
  _id : string;
  senderId : UserId;
  receiverId : UserId;
  content : string;
  replyTo : option string;
  isRead : bool;
  createdAt : nat
}.
End Message.

(** A JavaScript [Error]; only [error.message] is read. *)
Record Error := mkError { message : string }.

(** The object a client sends with [profile_updated]; the handler reads
    [clerkId] for its log line and forwards the object whole. *)
Record UserObject := mkUser {
  clerkId : string;
  fields : list (string * string)
}.

Module FollowRequest.
Record data := mk {
  targetUserId : UserId;
  requesterId : string;
  requesterName : string;
  requesterImageUrl : string
}.
End FollowRequest.

Module FollowAccepted.
Record data := mk {
  requesterId : UserId;
  accepterId : string;
  accepterName : string;
  accepterImageUrl : string
}.
End FollowAccepted.

Module FollowBackAvailable.
Record data := mk {
  userId : string;
  userName : string;
  userImageUrl : string
}.
End FollowBackAvailable.

Module SendMessage.
Record data := mk {
  senderId : UserId;
  receiverId : UserId;
  content : string
}.
End SendMessage.

(** ** Events handed to socket.io *)

Module Outbound.
Inductive event :=
| user_connected (userId : UserId)
| users_online (userIds : list UserId)
| activities (entries : list (UserId * Activity))
| activity_updated (userId : UserId) (activity : Activity)
| profile_updated (updatedUser : UserObject)
| follow_request (requesterId requesterName requesterImageUrl : string)
| follow_accepted (accepterId accepterName accepterImageUrl : string)
| follow_back_request (requesterId requesterName requesterImageUrl : string)
| follow_back_available (userId userName userImageUrl : string)
| receive_message (message : Message.t)
| message_sent (message : Message.t)
| message_error (description : string)
| user_disconnected (userId : UserId).
End Outbound.

(** The three ways the source emits: [io.emit] (every connection),
    [io.to(id).emit] (the room named [id]) and [socket.emit] (the socket
    whose handler is running). *)
Inductive Dest :=
| io_emit
| io_to (room : SocketId)
| socket_emit (socket : SocketId).

Definition Emit := (Dest * Outbound.event)%type.

(** Every socket joins the room named by its own id and the source never
    calls [join], so the room [id] holds exactly the socket [id]. *)
Definition reaches (d : Dest) (c : SocketId) : bool :=
  match d with
  | io_emit => true
  | io_to room => room =? c
  | socket_emit socket => socket =? c
  end.

Definition delivered_to (c : SocketId) (out : list Emit) : list Outbound.event :=
  map snd (filter (fun e => reaches (fst e) c) out).

(** ** Server state *)

Record Server := mkServer {
  userSockets : JsMap.t SocketId;      (* { userId: socketId } *)
  userActivities : JsMap.t Activity;   (* { userId: activity } *)
  handshakeAuth : JsMap.t UserId       (* socket.id -> socket.handshake.auth.userId *)
}.

Definition initializeSocket : Server :=
  mkServer JsMap.empty JsMap.empty JsMap.empty.

(** ** The handler monad

    A handler runs to completion on the server state, may emit, and
    completes normally or by throwing. *)

Inductive Completion (A : Type) :=
| Normal (a : A)
| Throw (error : Error).
Arguments Normal {A} a.
Arguments Throw {A} error.

Definition Handler (A : Type) := Server -> Completion A * Server * list Emit.

Definition ret {A : Type} (a : A) : Handler A :=
  fun st => (Normal a, st, []).

Definition bind {A B : Type} (m : Handler A) (f : A -> Handler B) : Handler B :=
  fun st =>
    match m st with
    | (Normal a, st1, out1) =>
        let '(r, st2, out2) := f a st1 in (r, st2, out1 ++ out2)
    | (Throw e, st1, out1) => (Throw e, st1, out1)
    end.

Definition try_catch {A : Type} (body : Handler A) (handler : Error -> Handler A)
  : Handler A :=
  fun st =>
    match body st with
    | (Normal a, st1, out1) => (Normal a, st1, out1)
    | (Throw e, st1, out1) =>
        let '(r, st2, out2) := handler e st1 in (r, st2, out1 ++ out2)
    end.

(** [await p] on a settled promise: the value, or the rejection thrown. *)
Definition await {A : Type} (p : A + Error) : Handler A :=
  fun st =>
    match p with
    | inl a => (Normal a, st, [])
    | inr e => (Throw e, st, [])
    end.

Declare Scope handler_scope.
Delimit Scope handler_scope with handler.
Notation "x <- m ;; k" := (bind m (fun x => k))
  (at level 61, m at next level, right associativity) : handler_scope.
Notation "m ;; k" := (bind m (fun _ => k))
  (at level 61, right associativity) : handler_scope.
Local Open Scope handler_scope.

Definition emit (d : Dest) (e : Outbound.event) : Handler unit :=
  fun st => (Normal tt, st, [(d, e)]).

Definition when (b : bool) (m : Handler unit) : Handler unit :=
  if b then m else ret tt.

Definition userSockets_get (userId : UserId) : Handler (option SocketId) :=
  fun st => (Normal (JsMap.get userId (userSockets st)), st, []).

Definition userSockets_set (userId : UserId) (socketId : SocketId) : Handler unit :=
  fun st =>
    (Normal tt,
     mkServer (JsMap.set userId socketId (userSockets st))
              (userActivities st) (handshakeAuth st),
     []).

Definition userSockets_delete (userId : UserId) : Handler unit :=
  fun st =>
    (Normal tt,
     mkServer (JsMap.delete userId (userSockets st))
              (userActivities st) (handshakeAuth st),
     []).

Definition userSockets_keys : Handler (list UserId) :=
  fun st => (Normal (JsMap.keys (userSockets st)), st, []).

Definition userSockets_entries : Handler (list (UserId * SocketId)) :=
  fun st => (Normal (JsMap.entries (userSockets st)), st, []).

Definition userActivities_set (userId : UserId) (activity : Activity) : Handler unit :=
  fun st =>
    (Normal tt,
     mkServer (userSockets st)
              (JsMap.set userId activity (userActivities st)) (handshakeAuth st),
     []).

Definition userActivities_delete (userId : UserId) : Handler unit :=
  fun st =>
    (Normal tt,
     mkServer (userSockets st)
              (JsMap.delete userId (userActivities st)) (handshakeAuth st),
     []).

Definition userActivities_entries : Handler (list (UserId * Activity)) :=
  fun st => (Normal (JsMap.entries (userActivities st)), st, []).

(** [socket.handshake.auth = { userId }] *)
Definition set_handshake_auth (socket : SocketId) (userId : UserId) : Handler unit :=
  fun st =>
    (Normal tt,
     mkServer (userSockets st) (userActivities st)
              (JsMap.set socket userId (handshakeAuth st)),
     []).

(** [socket.handshake?.auth?.userId] *)
Definition get_handshake_auth (socket : SocketId) : Handler (option UserId) :=
  fun st => (Normal (JsMap.get socket (handshakeAuth st)), st, []).

(** ** The handlers of [io.on("connection", (socket) => ...)]

    [socket] is the id of the socket the callback was registered on. *)

(** A new socket arrives with the [auth] object of the client's handshake;
    [authUserId] is its [userId] field, [None] when it has none. *)
Definition on_connection (socket : SocketId) (authUserId : option UserId)
  : Handler unit :=
  fun st =>
    (Normal tt,
     mkServer (userSockets st) (userActivities st)
              (match authUserId with
               | Some userId => JsMap.set socket userId (handshakeAuth st)
               | None => JsMap.delete socket (handshakeAuth st)
               end),
     []).

Definition on_user_connected (socket : SocketId) (userId : UserId) : Handler unit :=
  set_handshake_auth socket userId ;;
  userSockets_set userId socket ;;
  userActivities_set userId "Idle" ;;
  emit io_emit (Outbound.user_connected userId) ;;
  online <- userSockets_keys ;;
  emit (socket_emit socket) (Outbound.users_online online) ;;
  snapshot <- userActivities_entries ;;
  emit io_emit (Outbound.activities snapshot).

Definition on_update_activity (socket : SocketId) (userId : UserId)
  (activity : Activity) : Handler unit :=
  userActivities_set userId activity ;;
  emit io_emit (Outbound.activity_updated userId activity).

Definition on_profile_updated (socket : SocketId) (updatedUser : UserObject)
  : Handler unit :=
  emit io_emit (Outbound.profile_updated updatedUser).

Definition on_follow_request (socket : SocketId) (data : FollowRequest.data)
  : Handler unit :=
  targetSocketId <- userSockets_get (FollowRequest.targetUserId data) ;;
  match targetSocketId with
  | Some room =>
      when (truthy room)
        (emit (io_to room)
           (Outbound.follow_request (FollowRequest.requesterId data)
              (FollowRequest.requesterName data)
              (FollowRequest.requesterImageUrl data)))
  | None => ret tt
  end.

Definition on_follow_accepted (socket : SocketId) (data : FollowAccepted.data)
  : Handler unit :=
  requesterSocketId <- userSockets_get (FollowAccepted.requesterId data) ;;
  match requesterSocketId with
  | Some room =>
      when (truthy room)
        (emit (io_to room)
           (Outbound.follow_accepted (FollowAccepted.accepterId data)
              (FollowAccepted.accepterName data)
              (FollowAccepted.accepterImageUrl data)))
  | None => ret tt
  end.

Definition on_follow_back_request (socket : SocketId) (data : FollowRequest.data)
  : Handler unit :=
  targetSocketId <- userSockets_get (FollowRequest.targetUserId data) ;;
  match targetSocketId with
  | Some room =>
      when (truthy room)
        (emit (io_to room)
           (Outbound.follow_back_request (FollowRequest.requesterId data)
              (FollowRequest.requesterName data)
              (FollowRequest.requesterImageUrl data)))
  | None => ret tt
  end.

(** [userSockets.get(undefined)] finds nothing: every key is a string. *)
Definition on_follow_back_available (socket : SocketId)
  (data : FollowBackAvailable.data) : Handler unit :=
  authUserId <- get_handshake_auth socket ;;
  socketId <- match authUserId with
              | Some userId => userSockets_get userId
              | None => ret None
              end ;;
  match socketId with
  | Some room =>
      when (truthy room)
        (emit (io_to room)
           (Outbound.follow_back_available (FollowBackAvailable.userId data)
              (FollowBackAvailable.userName data)
              (FollowBackAvailable.userImageUrl data)))
  | None => ret tt
  end.

(** [created] is the settled promise of [Message.create({senderId,
    receiverId, content})].  Nothing before the [await] reads or writes the
    registries, so the handler is run on the state at the time the promise
    settles, where the rest of the body executes without interruption. *)
Definition on_send_message (socket : SocketId) (data : SendMessage.data)
  (created : Message.t + Error) : Handler unit :=
  try_catch
    (message <- await created ;;
     receiverSocketId <- userSockets_get (SendMessage.receiverId data) ;;
     match receiverSocketId with
     | Some room =>
         when (truthy room)
           (emit (io_to room) (Outbound.receive_message message))
     | None => ret tt
     end ;;
     emit (socket_emit socket) (Outbound.message_sent message))
    (fun error =>
       emit (socket_emit socket) (Outbound.message_error (message error))).

(** The [for ... of userSockets.entries()] loop with its [break]: the first
    entry, in insertion order, whose socket id is the given one. *)
Fixpoint find_disconnected (socket : SocketId) (entries : list (UserId * SocketId))
  : option UserId :=
  match entries with
  | [] => None
  | (userId, socketId) :: rest =>
      if socketId =? socket then Some userId else find_disconnected socket rest
  end.

Definition on_disconnect (socket : SocketId) : Handler unit :=
  entries <- userSockets_entries ;;
  let disconnectedUserId := find_disconnected socket entries in
  match disconnectedUserId with
  | Some userId => userSockets_delete userId ;; userActivities_delete userId
  | None => ret tt
  end ;;
  when (truthy_opt disconnectedUserId)
    (match disconnectedUserId with
     | Some userId => emit io_emit (Outbound.user_disconnected userId)
     | None => ret tt
     end).

(** ** The server as a transition system *)

Module Inbound.
Inductive event :=
| connection (authUserId : option UserId)
| user_connected (userId : UserId)
| update_activity (userId : UserId) (activity : Activity)
| profile_updated (updatedUser : UserObject)
| follow_request (data : FollowRequest.data)
| follow_accepted (data : FollowAccepted.data)
| follow_back_request (data : FollowRequest.data)
| follow_back_available (data : FollowBackAvailable.data)
| send_message (data : SendMessage.data) (created : Message.t + Error)
| disconnect.
End Inbound.

Definition handle (socket : SocketId) (ev : Inbound.event) : Handler unit :=
  match ev with
  | Inbound.connection authUserId => on_connection socket authUserId
  | Inbound.user_connected userId => on_user_connected socket userId
  | Inbound.update_activity userId activity =>
      on_update_activity socket userId activity
  | Inbound.profile_updated updatedUser => on_profile_updated socket updatedUser
  | Inbound.follow_request data => on_follow_request socket data
  | Inbound.follow_accepted data => on_follow_accepted socket data
  | Inbound.follow_back_request data => on_follow_back_request socket data
  | Inbound.follow_back_available data => on_follow_back_available socket data
  | Inbound.send_message data created => on_send_message socket data created
  | Inbound.disconnect => on_disconnect socket
  end.

Definition completion {A : Type} (r : Completion A * Server * list Emit)
  : Completion A := fst (fst r).
Definition state_of {A : Type} (r : Completion A * Server * list Emit)
  : Server := snd (fst r).
Definition output {A : Type} (r : Completion A * Server * list Emit)
  : list Emit := snd r.

Definition step (st : Server) (e : SocketId * Inbound.event) : Server :=
  state_of (handle (fst e) (snd e) st).

(** The state after a sequence of inbound events, each tagged with the
    socket it arrives on. *)
Definition run (st : Server) (trace : list (SocketId * Inbound.event)) : Server :=
  fold_left step trace st.

(** Everything emitted along a sequence of inbound events. *)
Fixpoint run_output (st : Server) (trace : list (SocketId * Inbound.event))
  : list Emit :=
  match trace with
  | [] => []
  | e :: rest =>
      output (handle (fst e) (snd e) st) ++ run_output (step st e) rest
  end.

(** The identity whose registry entry a handler reads to address a directed
    event: the argument it passes to [userSockets.get]. *)
Definition routing_identity (st : Server) (socket : SocketId) (ev : Inbound.event)
  : option UserId :=
  match ev with
  | Inbound.follow_request data => Some (FollowRequest.targetUserId data)
  | Inbound.follow_accepted data => Some (FollowAccepted.requesterId data)
  | Inbound.follow_back_request data => Some (FollowRequest.targetUserId data)
  | Inbound.follow_back_available _ => JsMap.get socket (handshakeAuth st)
  | Inbound.send_message data _ => Some (SendMessage.receiverId data)
  | _ => None
  end.

(** The rooms addressed by [io.to(...)] in a list of emitted events. *)
Fixpoint rooms (out : list Emit) : list SocketId :=
  match out with
  | [] => []
  | (io_to room, _) :: rest => room :: rooms rest
  | _ :: rest => rooms rest
  end.

(** The shape shared by the directed handlers: [const id =
    userSockets.get(userId); if (id) io.to(id).emit(...)]. *)
Definition directed (userId : option UserId) (e : Outbound.event) (st : Server)
  : list Emit :=
  match userId with
  | Some u =>
      match JsMap.get u (userSockets st) with
      | Some room => if truthy room then [(io_to room, e)] else []
      | None => []
      end
  | None => []
  end.

(** ** Well-formed states

    A [Map] holds a key once, and socket.io gives every socket a non-empty
    id; [wf] records both for the lists that stand for the maps. *)

Definition all_truthy (m : JsMap.t SocketId) : Prop :=
  Forall (fun e => truthy (snd e) = true) m.

Record wf (st : Server) : Prop := mk_wf {
  wf_sockets : NoDup (JsMap.keys (userSockets st));
  wf_activities : NoDup (JsMap.keys (userActivities st));
  wf_truthy : all_truthy (userSockets st)
}.

(** A trace whose events all arrive on sockets with a non-empty id. *)
Definition sockets_named (trace : list (SocketId * Inbound.event)) : Prop :=
  Forall (fun e => truthy (fst e) = true) trace.

(** No event of the trace binds [userId] on [socket]. *)
Definition never_binds (socket : SocketId) (userId : UserId)
  (trace : list (SocketId * Inbound.event)) : Prop :=
  ~ List.In (socket, Inbound.user_connected userId) trace.

(** Each socket of the trace binds at most one identity. *)
Definition one_identity_per_socket (trace : list (SocketId * Inbound.event)) : Prop :=
  forall socket u1 u2,
    List.In (socket, Inbound.user_connected u1) trace ->
    List.In (socket, Inbound.user_connected u2) trace ->
    u1 = u2.

(** No two identities of the registry hold the same connection. *)
Definition connections_distinct (m : JsMap.t SocketId) : Prop :=
  forall u1 u2 c,
    JsMap.get u1 m = Some c -> JsMap.get u2 m = Some c -> u1 = u2.

(** An event of the trace that replaces the identity stored on [socket]:
    the handshake of a new socket of that id, or [user_connected] on it. *)
Definition rebinds (socket : SocketId) (e : SocketId * Inbound.event) : bool :=
  match snd e with
  | Inbound.connection _ => fst e =? socket
  | Inbound.user_connected _ => fst e =? socket
  | _ => false
  end.

(** ** Sample values for the examples *)

Module Sample.
Definition hello : Message.t :=
  Message.mk "m1" "alice" "bob" "hi" None false 0.
Definition hello_data : SendMessage.data := SendMessage.mk "alice" "bob" "hi".
Definition follow_bob : FollowRequest.data :=
  FollowRequest.mk "bob" "alice" "Alice" "alice.png".
Definition available : FollowBackAvailable.data :=
  FollowBackAvailable.mk "bob" "Bob" "bob.png".
Definition storage_down : Error := mkError "storage unavailable".
(** alice on socket s1, bob on socket s2 *)
Definition two_online : Server :=
  run initializeSocket
    [("s1", Inbound.user_connected "alice"); ("s2", Inbound.user_connected "bob")].
End Sample.

(** An event that can change the registry entry of [userId] while it holds
    [socket]: a bind of that identity, from any socket, or the disconnect
    of that socket. *)
Definition touches (userId : UserId) (socket : SocketId)
  (e : SocketId * Inbound.event) : bool :=
  match snd e with
  | Inbound.user_connected u => u =? userId
  | Inbound.disconnect => fst e =? socket
  | _ => false
  end.

(** The events of [out] that were emitted with [io.emit]. *)
Definition broadcasts (out : list Emit) : list Outbound.event :=
  map snd
    (filter (fun e => match fst e with io_emit => true | _ => false end) out).

(** ** The album controller

    [getAllAlbums], [getAlbumById] and [searchAlbums] are Express handlers
    over the [Album] model.  The model itself ([models/album.model.js]) is
    not among the sources, so the document type is a parameter and the
    store answers through [Store]; a handler yields, in order, the queries
    it puts to the store, the response it sends and the error it passes to
    [next]. *)

Module AlbumController.

(** [{ field: { $regex: pattern, $options: options } }] *)
Inductive Condition :=
| regex (field pattern options : string).

Inductive Filter :=
| everything                              (* find() *)
| any_of (conditions : list Condition).   (* find({ $or: [...] }) *)

Inductive Query :=
| find (filter : Filter) (limit : option nat)
| findById (id : string) (populate : list string).

Section Controller.
Variable Album : Type.

Record Store := mkStore {
  run_find : Filter -> option nat -> list Album + Error;
  run_findById : string -> list string -> option Album + Error
}.

Inductive Body :=
| json_albums (albums : list Album)
| json_album (album : Album)
| json_message (message : string).

Inductive Effect :=
| query (q : Query)
| status_json (status : nat) (body : Body)   (* res.status(n).json(body) *)
| next (error : Error).

Definition getAllAlbums (store : Store) : list Effect :=
  query (find everything None) ::
  match run_find store everything None with
  | inl albums => [status_json 200 (json_albums albums)]
  | inr error => [next error]
  end.

Definition getAlbumById (store : Store) (albumId : string) : list Effect :=
  query (findById albumId ["songs"]) ::
  match run_findById store albumId ["songs"] with
  | inl None => [status_json 404 (json_message "Album not found")]
  | inl (Some album) => [status_json 200 (json_album album)]
  | inr error => [next error]
  end.

(** [q] is [req.query.q]: [None] when the parameter is missing. *)
Definition searchAlbums (store : Store) (q : option string) : list Effect :=
  if negb (truthy_opt q) then
    [status_json 400 (json_message "Query parameter 'q' is required")]
  else
    let pattern := match q with Some p => p | None => "" end in
    let filter :=
      any_of [regex "title" pattern "i"; regex "artist" pattern "i"] in
    query (find filter (Some 10)) ::
    match run_find store filter (Some 10) with
    | inl albums => [status_json 200 (json_albums albums)]
    | inr error => [next error]
    end.

(** How many times a handler finished the request: responses sent plus
    calls of [next]. *)
Definition completions (effects : list Effect) : nat :=
  List.length
    (filter (fun e => match e with query _ => false | _ => true end) effects).

Definition queries (effects : list Effect) : list Query :=
  flat_map (fun e => match e with query q => [q] | _ => [] end) effects.

End Controller.

Arguments json_albums {Album} albums.
Arguments json_album {Album} album.
Arguments json_message {Album} message.
Arguments query {Album} q.
Arguments status_json {Album} status body.
Arguments next {Album} error.
Arguments getAllAlbums {Album} store.
Arguments getAlbumById {Album} store albumId.
Arguments searchAlbums {Album} store q.
Arguments completions {Album} effects.
Arguments queries {Album} effects.

End AlbumController.

(** ** The reply preview of the chat page

    [ChatPage.tsx] shows the message replied to as
    [content.length > 50 ? content.substring(0, 50) + "..." : content];
    a string is its sequence of code units. *)
Definition replyPreview (content : string) : string :=
  if (50 <? String.length content)%nat
  then String.substring 0 50 content ++ "..."
  else content.

(** ** Who writes [socket.handshake.auth]

    The [auth] object of a socket is written twice in the source: by
    socket.io when the socket is created, from the client's handshake, and
    by [user_connected] on that socket.  [carry] is the identity the socket
    carries after one event, [carried_identity] after a sequence. *)
Definition carry (socket : SocketId) (current : option UserId)
  (e : SocketId * Inbound.event) : option UserId :=
  if fst e =? socket then
    match snd e with
    | Inbound.connection authUserId => authUserId
    | Inbound.user_connected userId => Some userId
    | _ => current
    end
  else current.

Definition carried_identity (socket : SocketId) (start : option UserId)
  (trace : list (SocketId * Inbound.event)) : option UserId :=
  fold_left (carry socket) trace start.

(** An [update_activity] that names an identity with a presence entry in
    [st]; every other event passes. *)
Definition names_bound (st : Server) (e : SocketId * Inbound.event) : bool :=
  match snd e with
  | Inbound.update_activity userId _ =>
      match JsMap.get userId (userSockets st) with
      | Some _ => true
      | None => false
      end
  | _ => true
  end.

(** Every [update_activity] of the trace names an identity that is bound
    when the event is handled. *)
Fixpoint updates_bound (st : Server) (trace : list (SocketId * Inbound.event))
  : bool :=
  match trace with
  | [] => true
  | e :: rest => names_bound st e && updates_bound (step st e) rest
  end.

(** * Properties *)

(** ** Facts about [JsMap] *)

Section JsMapFacts.
Context {V : Type}.
Implicit Types (m : JsMap.t V) (k : string) (v : V).

Lemma get_set_same k v m : JsMap.get k (JsMap.set k v m) = Some v.
Proof.
  induction m as [|[k' v'] m IH]; simpl.
  - now rewrite String.eqb_refl.
  - destruct (k' =? k) eqn:E; simpl.
    + now rewrite String.eqb_refl.
    + now rewrite E.
Qed.

Lemma get_set_other k k' v m :
  k <> k' -> JsMap.get k' (JsMap.set k v m) = JsMap.get k' m.
Proof.
  intros Hne. induction m as [|[k0 v0] m IH]; simpl.
  - apply String.eqb_neq in Hne. now rewrite Hne.
  - destruct (k0 =? k) eqn:E; simpl.
    + apply String.eqb_eq in E. subst k0.
      apply String.eqb_neq in Hne. now rewrite Hne.
    + now rewrite IH.
Qed.

Lemma get_delete_other k k' m :
  k <> k' -> JsMap.get k' (JsMap.delete k m) = JsMap.get k' m.
Proof.
  intros Hne. induction m as [|[k0 v0] m IH]; simpl; [reflexivity|].
  destruct (k0 =? k) eqn:E; simpl.
  - apply String.eqb_eq in E. subst k0.
    apply String.eqb_neq in Hne. now rewrite Hne.
  - now rewrite IH.
Qed.

Lemma get_None_keys k m : JsMap.get k m = None <-> ~ List.In k (JsMap.keys m).
Proof.
  induction m as [|[k0 v0] m IH]; simpl.
  - tauto.
  - destruct (String.eqb_spec k0 k) as [->|Hne].
    + split; [discriminate | intros H; exfalso; apply H; now left].
    + rewrite IH. split; [intros H [H1|H1]; [congruence | tauto] | tauto].
Qed.

Lemma get_Some_keys k v m : JsMap.get k m = Some v -> List.In k (JsMap.keys m).
Proof.
  intros H. destruct (in_dec string_dec k (JsMap.keys m)) as [Hin|Hnin]; [assumption|].
  apply get_None_keys in Hnin. congruence.
Qed.

Lemma keys_get k m : List.In k (JsMap.keys m) -> exists v, JsMap.get k m = Some v.
Proof.
  intros Hin. destruct (JsMap.get k m) as [v|] eqn:E; [now exists v|].
  apply get_None_keys in E. contradiction.
Qed.

Lemma in_keys_set k k' v m :
  List.In k' (JsMap.keys (JsMap.set k v m)) <-> k' = k \/ List.In k' (JsMap.keys m).
Proof.
  induction m as [|[k0 v0] m IH]; simpl.
  - intuition congruence.
  - destruct (String.eqb_spec k0 k) as [->|Hne]; simpl.
    + intuition congruence.
    + rewrite IH. intuition congruence.
Qed.

Lemma in_keys_delete k k' m :
  List.In k' (JsMap.keys (JsMap.delete k m)) -> List.In k' (JsMap.keys m).
Proof.
  induction m as [|[k0 v0] m IH]; simpl; [tauto|].
  destruct (k0 =? k); simpl; intuition.
Qed.

Lemma in_keys_delete_other k k' m :
  k <> k' -> List.In k' (JsMap.keys m) -> List.In k' (JsMap.keys (JsMap.delete k m)).
Proof.
  intros Hne. induction m as [|[k0 v0] m IH]; simpl; [tauto|].
  destruct (String.eqb_spec k0 k) as [->|Hne0]; simpl.
  - intros [H|H]; [congruence | assumption].
  - intuition.
Qed.

Lemma NoDup_keys_set k v m :
  NoDup (JsMap.keys m) -> NoDup (JsMap.keys (JsMap.set k v m)).
Proof.
  induction m as [|[k0 v0] m IH]; simpl; intros Hnd.
  - constructor; [simpl; tauto | constructor].
  - inversion Hnd as [|? ? Hnin Hnd']; subst.
    destruct (String.eqb_spec k0 k) as [->|Hne]; simpl.
    + now constructor.
    + constructor; [|now apply IH].
      fold (JsMap.keys (JsMap.set k v m)). rewrite in_keys_set.
      intros [->|Hin]; [congruence | contradiction].
Qed.

Lemma NoDup_keys_delete k m :
  NoDup (JsMap.keys m) -> NoDup (JsMap.keys (JsMap.delete k m)).
Proof.
  induction m as [|[k0 v0] m IH]; simpl; intros Hnd; [constructor|].
  inversion Hnd as [|? ? Hnin Hnd']; subst.
  destruct (k0 =? k); simpl; [assumption|].
  constructor; [|now apply IH].
  intros Hin. apply Hnin. eapply in_keys_delete. exact Hin.
Qed.

(** On a real map ([NoDup] keys) a deleted key is gone. *)
Lemma get_delete_same k m :
  NoDup (JsMap.keys m) -> JsMap.get k (JsMap.delete k m) = None.
Proof.
  induction m as [|[k0 v0] m IH]; simpl; intros Hnd; [reflexivity|].
  inversion Hnd as [|? ? Hnin Hnd']; subst.
  destruct (String.eqb_spec k0 k) as [->|Hne]; simpl.
  - now apply get_None_keys.
  - apply String.eqb_neq in Hne. rewrite Hne. now apply IH.
Qed.

End JsMapFacts.

Lemma all_truthy_set k c (m : JsMap.t SocketId) :
  truthy c = true -> all_truthy m -> all_truthy (JsMap.set k c m).
Proof.
  intros Hc. unfold all_truthy.
  induction m as [|[k0 v0] m IH]; simpl; intros H.
  - constructor; [assumption | constructor].
  - inversion H; subst. destruct (k0 =? k); constructor; auto.
Qed.

Lemma all_truthy_delete k (m : JsMap.t SocketId) :
  all_truthy m -> all_truthy (JsMap.delete k m).
Proof.
  unfold all_truthy.
  induction m as [|[k0 v0] m IH]; simpl; intros H; [constructor|].
  inversion H; subst. destruct (k0 =? k); [assumption|]. constructor; auto.
Qed.

Lemma all_truthy_get k c (m : JsMap.t SocketId) :
  all_truthy m -> JsMap.get k m = Some c -> truthy c = true.
Proof.
  unfold all_truthy.
  induction m as [|[k0 v0] m IH]; simpl; intros H Hg; [discriminate|].
  inversion H; subst. destruct (k0 =? k).
  - injection Hg as <-. assumption.
  - now apply IH.
Qed.

Lemma get_In {V : Type} k (v : V) (m : JsMap.t V) :
  JsMap.get k m = Some v -> List.In (k, v) m.
Proof.
  induction m as [|[k0 v0] m IH]; simpl; [discriminate|].
  destruct (String.eqb_spec k0 k) as [->|Hne].
  - intros [= ->]. now left.
  - intros H. right. now apply IH.
Qed.

Lemma In_get {V : Type} k (v : V) (m : JsMap.t V) :
  NoDup (JsMap.keys m) -> List.In (k, v) m -> JsMap.get k m = Some v.
Proof.
  induction m as [|[k0 v0] m IH]; simpl; [tauto|].
  intros Hnd Hin. inversion Hnd as [|? ? Hnin Hnd']; subst.
  destruct Hin as [[= -> ->]|Hin].
  - now rewrite String.eqb_refl.
  - destruct (String.eqb_spec k0 k) as [->|Hne]; [|now apply IH].
    exfalso. apply Hnin. change k with (fst (k, v)). now apply in_map.
Qed.

(** ** The scan of the [disconnect] handler *)

Lemma find_disconnected_In socket m u :
  find_disconnected socket m = Some u -> List.In (u, socket) m.
Proof.
  induction m as [|[k0 v0] m IH]; simpl; [discriminate|].
  destruct (String.eqb_spec v0 socket) as [->|Hne].
  - intros [= ->]. now left.
  - intros H. right. now apply IH.
Qed.

Lemma find_disconnected_None socket m :
  find_disconnected socket m = None <-> forall u, ~ List.In (u, socket) m.
Proof.
  induction m as [|[k0 v0] m IH]; simpl.
  - split; [intros _ u H; exact H | reflexivity].
  - destruct (String.eqb_spec v0 socket) as [->|Hne].
    + split; [discriminate | intros H; exfalso; apply (H k0); now left].
    + rewrite IH. split.
      * intros H u [[= -> ->]|Hin]; [congruence | exact (H u Hin)].
      * intros H u Hin. apply (H u). now right.
Qed.

Lemma find_disconnected_get socket m u :
  NoDup (JsMap.keys m) ->
  find_disconnected socket m = Some u -> JsMap.get u m = Some socket.
Proof.
  intros Hnd H. apply In_get; [assumption|]. now apply find_disconnected_In.
Qed.

Lemma find_disconnected_unbound socket m :
  NoDup (JsMap.keys m) ->
  (find_disconnected socket m = None <->
   forall u, JsMap.get u m <> Some socket).
Proof.
  intros Hnd. rewrite find_disconnected_None. split.
  - intros H u Hg. apply (H u). now apply get_In.
  - intros H u Hin. apply (H u). now apply In_get.
Qed.

(** ** What each handler computes *)

Lemma on_user_connected_eq socket userId st :
  on_user_connected socket userId st =
  (Normal tt,
   mkServer (JsMap.set userId socket (userSockets st))
            (JsMap.set userId "Idle" (userActivities st))
            (JsMap.set socket userId (handshakeAuth st)),
   [(io_emit, Outbound.user_connected userId);
    (socket_emit socket,
     Outbound.users_online (JsMap.keys (JsMap.set userId socket (userSockets st))));
    (io_emit,
     Outbound.activities
       (JsMap.entries (JsMap.set userId "Idle" (userActivities st))))]).
Proof. reflexivity. Qed.

Lemma on_update_activity_eq socket userId activity st :
  on_update_activity socket userId activity st =
  (Normal tt,
   mkServer (userSockets st)
            (JsMap.set userId activity (userActivities st))
            (handshakeAuth st),
   [(io_emit, Outbound.activity_updated userId activity)]).
Proof. reflexivity. Qed.

Lemma on_disconnect_eq socket st :
  on_disconnect socket st =
  match find_disconnected socket (userSockets st) with
  | Some userId =>
      (Normal tt,
       mkServer (JsMap.delete userId (userSockets st))
                (JsMap.delete userId (userActivities st))
                (handshakeAuth st),
       if truthy userId then [(io_emit, Outbound.user_disconnected userId)] else [])
  | None => (Normal tt, st, [])
  end.
Proof.
  unfold on_disconnect, bind, userSockets_entries, JsMap.entries. simpl.
  destruct (find_disconnected socket (userSockets st)) as [u|]; simpl.
  - destruct (truthy u); reflexivity.
  - reflexivity.
Qed.

Lemma on_follow_request_eq socket data st :
  on_follow_request socket data st =
  (Normal tt, st,
   directed (Some (FollowRequest.targetUserId data))
     (Outbound.follow_request (FollowRequest.requesterId data)
        (FollowRequest.requesterName data) (FollowRequest.requesterImageUrl data)) st).
Proof.
  unfold on_follow_request, directed, bind, userSockets_get. simpl.
  destruct (JsMap.get _ (userSockets st)) as [room|]; simpl; [|reflexivity].
  destruct (truthy room); reflexivity.
Qed.

Lemma on_follow_accepted_eq socket data st :
  on_follow_accepted socket data st =
  (Normal tt, st,
   directed (Some (FollowAccepted.requesterId data))
     (Outbound.follow_accepted (FollowAccepted.accepterId data)
        (FollowAccepted.accepterName data) (FollowAccepted.accepterImageUrl data)) st).
Proof.
  unfold on_follow_accepted, directed, bind, userSockets_get. simpl.
  destruct (JsMap.get _ (userSockets st)) as [room|]; simpl; [|reflexivity].
  destruct (truthy room); reflexivity.
Qed.

Lemma on_follow_back_request_eq socket data st :
  on_follow_back_request socket data st =
  (Normal tt, st,
   directed (Some (FollowRequest.targetUserId data))
     (Outbound.follow_back_request (FollowRequest.requesterId data)
        (FollowRequest.requesterName data) (FollowRequest.requesterImageUrl data)) st).
Proof.
  unfold on_follow_back_request, directed, bind, userSockets_get. simpl.
  destruct (JsMap.get _ (userSockets st)) as [room|]; simpl; [|reflexivity].
  destruct (truthy room); reflexivity.
Qed.

Lemma on_follow_back_available_eq socket data st :
  on_follow_back_available socket data st =
  (Normal tt, st,
   directed (JsMap.get socket (handshakeAuth st))
     (Outbound.follow_back_available (FollowBackAvailable.userId data)
        (FollowBackAvailable.userName data) (FollowBackAvailable.userImageUrl data)) st).
Proof.
  unfold on_follow_back_available, directed, bind, get_handshake_auth, userSockets_get.
  simpl.
  destruct (JsMap.get socket (handshakeAuth st)) as [u|]; simpl; [|reflexivity].
  destruct (JsMap.get u (userSockets st)) as [room|]; simpl; [|reflexivity].
  destruct (truthy room); reflexivity.
Qed.

Lemma on_send_message_created_eq socket data message st :
  on_send_message socket data (inl message) st =
  (Normal tt, st,
   directed (Some (SendMessage.receiverId data)) (Outbound.receive_message message) st
   ++ [(socket_emit socket, Outbound.message_sent message)]).
Proof.
  unfold on_send_message, try_catch, directed, bind, await, userSockets_get. simpl.
  destruct (JsMap.get _ (userSockets st)) as [room|]; simpl; [|reflexivity].
  destruct (truthy room); reflexivity.
Qed.

Lemma on_send_message_rejected_eq socket data error st :
  on_send_message socket data (inr error) st =
  (Normal tt, st, [(socket_emit socket, Outbound.message_error (message error))]).
Proof. reflexivity. Qed.

(** ** Handlers return, and keep the state well formed *)

Lemma handle_completes socket ev st :
  completion (handle socket ev st) = Normal tt.
Proof.
  destruct ev as [a|u|u a|x|d|d|d|d|d [m|e]|]; simpl.
  - reflexivity.
  - reflexivity.
  - reflexivity.
  - reflexivity.
  - now rewrite on_follow_request_eq.
  - now rewrite on_follow_accepted_eq.
  - now rewrite on_follow_back_request_eq.
  - now rewrite on_follow_back_available_eq.
  - now rewrite on_send_message_created_eq.
  - reflexivity.
  - rewrite on_disconnect_eq.
    now destruct (find_disconnected socket (userSockets st)).
Qed.

(** The registries after one event, handler by handler. *)
Lemma step_registries socket ev st :
  let st' := state_of (handle socket ev st) in
  match ev with
  | Inbound.user_connected u =>
      userSockets st' = JsMap.set u socket (userSockets st) /\
      userActivities st' = JsMap.set u "Idle" (userActivities st)
  | Inbound.update_activity u a =>
      userSockets st' = userSockets st /\
      userActivities st' = JsMap.set u a (userActivities st)
  | Inbound.disconnect =>
      match find_disconnected socket (userSockets st) with
      | Some u =>
          userSockets st' = JsMap.delete u (userSockets st) /\
          userActivities st' = JsMap.delete u (userActivities st)
      | None =>
          userSockets st' = userSockets st /\
          userActivities st' = userActivities st
      end
  | _ =>
      userSockets st' = userSockets st /\
      userActivities st' = userActivities st
  end.
Proof.
  unfold state_of.
  destruct ev as [a|u|u a|x|d|d|d|d|d [m|e]|]; simpl handle.
  - now split.
  - now split.
  - now split.
  - now split.
  - rewrite on_follow_request_eq. now split.
  - rewrite on_follow_accepted_eq. now split.
  - rewrite on_follow_back_request_eq. now split.
  - rewrite on_follow_back_available_eq. now split.
  - rewrite on_send_message_created_eq. now split.
  - now split.
  - rewrite on_disconnect_eq.
    destruct (find_disconnected socket (userSockets st)); now split.
Qed.

Lemma wf_step st e :
  wf st -> truthy (fst e) = true -> wf (step st e).
Proof.
  intros [Hs Ha Ht] Hsock. destruct e as [socket ev]. simpl in Hsock.
  pose proof (step_registries socket ev st) as H. cbv zeta in H.
  unfold step. simpl fst. simpl snd.
  destruct ev as [a|u|u a|x|d|d|d|d|d c|];
    try (destruct H as [Hus Hua]; constructor; rewrite ?Hus, ?Hua;
         auto using NoDup_keys_set, all_truthy_set).
  destruct (find_disconnected socket (userSockets st)) as [u|];
    destruct H as [Hus Hua]; constructor; rewrite ?Hus, ?Hua;
    auto using NoDup_keys_delete, all_truthy_delete.
Qed.

Lemma wf_run trace : forall st,
  wf st -> sockets_named trace -> wf (run st trace).
Proof.
  induction trace as [|e trace IH]; intros st Hwf Hn; simpl; [assumption|].
  inversion Hn; subst. apply IH; [now apply wf_step | assumption].
Qed.

Lemma wf_initial : wf initializeSocket.
Proof. constructor; simpl; constructor. Qed.

Lemma directed_wf u e st :
  wf st ->
  directed (Some u) e st =
  match JsMap.get u (userSockets st) with
  | Some room => [(io_to room, e)]
  | None => []
  end.
Proof.
  intros Hwf. unfold directed.
  destruct (JsMap.get u (userSockets st)) as [room|] eqn:E; [|reflexivity].
  now rewrite (all_truthy_get _ _ _ (wf_truthy _ Hwf) E).
Qed.

Ltac solve_wf :=
  constructor; simpl;
  repeat (constructor; simpl; try tauto; try (intuition discriminate)).

Lemma wf_two_online : wf Sample.two_online.
Proof. solve_wf. Qed.

(** ** Sending a message *)

(** C1: when [Message.create] succeeds, the sender's socket gets exactly one
    [message_sent] carrying the persisted message whether or not the
    receiver is bound; the receiver's socket gets exactly one
    [receive_message] with the same message if and only if the receiver is
    bound in the registry; no other connection gets anything. *)
Theorem send_message_created st socket data message :
  wf st ->
  let r := on_send_message socket data (inl message) st in
  let receiver := JsMap.get (SendMessage.receiverId data) (userSockets st) in
  completion r = Normal tt /\
  state_of r = st /\
  output r =
    match receiver with
    | Some room => [(io_to room, Outbound.receive_message message)]
    | None => []
    end ++ [(socket_emit socket, Outbound.message_sent message)] /\
  forall c,
    delivered_to c (output r) =
    match receiver with
    | Some room =>
        if room =? c then [Outbound.receive_message message] else []
    | None => []
    end ++ (if socket =? c then [Outbound.message_sent message] else []).
Proof.
  intros Hwf r receiver. subst r receiver.
  rewrite on_send_message_created_eq, (directed_wf _ _ _ Hwf).
  unfold completion, state_of, output; simpl.
  repeat split.
  intros c. unfold delivered_to.
  destruct (JsMap.get (SendMessage.receiverId data) (userSockets st)) as [room|];
    simpl; [destruct (room =? c); simpl|]; destruct (socket =? c); reflexivity.
Qed.

Lemma send_message_created_witness :
  wf Sample.two_online /\
  output (on_send_message "s1" Sample.hello_data (inl Sample.hello) Sample.two_online) =
  [(io_to "s2", Outbound.receive_message Sample.hello);
   (socket_emit "s1", Outbound.message_sent Sample.hello)].
Proof.
  split; [exact wf_two_online|].
  exact (proj1 (proj2 (proj2
    (send_message_created Sample.two_online "s1" Sample.hello_data Sample.hello
       wf_two_online)))).
Defined.

(** C2: when [Message.create] fails, the sender's socket gets exactly one
    [message_error] carrying [error.message] and no other connection gets
    anything; neither [receive_message] nor [message_sent] is emitted, the
    handler returns normally, and the registries are as they were. *)
Theorem send_message_rejected st socket data error :
  let r := on_send_message socket data (inr error) st in
  completion r = Normal tt /\
  state_of r = st /\
  output r = [(socket_emit socket, Outbound.message_error (message error))] /\
  forall c,
    delivered_to c (output r) =
    if socket =? c then [Outbound.message_error (message error)] else [].
Proof.
  intros r. subst r. rewrite on_send_message_rejected_eq.
  unfold completion, state_of, output, delivered_to; simpl.
  repeat split. intros c. now destruct (socket =? c).
Qed.

(** ** Binding *)

(** The identities of the registry after a bind, in [Map] order: the list
    as it was when the identity was already there, the identity appended
    when it was not. *)
Lemma keys_set_order {V : Type} u (v : V) (m : JsMap.t V) :
  JsMap.keys (JsMap.set u v m) =
  if in_dec string_dec u (map fst m) then map fst m else map fst m ++ [u].
Proof.
  induction m as [|[k0 v0] m IH]; simpl.
  - reflexivity.
  - destruct (String.eqb_spec k0 u) as [E|Hne]; simpl.
    + destruct (string_dec k0 u) as [He|Hn]; [now rewrite E | congruence].
    + destruct (string_dec k0 u) as [He|Hn]; [congruence|].
      fold (JsMap.keys (JsMap.set u v m)). rewrite IH.
      now destruct (in_dec string_dec u (map fst m)).
Qed.

(** C5: [user_connected] with identity [u] on socket [c] creates or
    overwrites the registry entry of [u] with [c] and leaves the other
    entries alone, sets the activity of [u] to "Idle", broadcasts
    [user_connected u], sends [users_online] to [c] only, and broadcasts
    [activities].  The [users_online] list is the full list of online
    identities: the identities bound before, in their order, with [u]
    appended when it was not among them; it has no duplicate and lists
    exactly the identities that have a registry entry after the bind.  The
    [activities] snapshot is the full activity map: it has one pair per
    identity and holds the pair [(u', a)] exactly when the label of [u']
    after the bind is [a]. *)
Theorem user_connected_binds st c u :
  wf st ->
  let r := on_user_connected c u st in
  let st' := state_of r in
  let before := map fst (userSockets st) in
  let online :=
    if in_dec string_dec u before then before else before ++ [u] in
  let snapshot := userActivities st' in
  completion r = Normal tt /\
  userSockets st' = JsMap.set u c (userSockets st) /\
  userActivities st' = JsMap.set u "Idle" (userActivities st) /\
  (forall u',
     JsMap.get u' (userSockets st') =
     if u =? u' then Some c else JsMap.get u' (userSockets st)) /\
  (forall u',
     JsMap.get u' (userActivities st') =
     if u =? u' then Some "Idle" else JsMap.get u' (userActivities st)) /\
  output r =
    [(io_emit, Outbound.user_connected u);
     (socket_emit c, Outbound.users_online online);
     (io_emit, Outbound.activities snapshot)] /\
  (forall c',
     delivered_to c' (output r) =
     Outbound.user_connected u ::
     (if c =? c' then [Outbound.users_online online] else []) ++
     [Outbound.activities snapshot]) /\
  NoDup online /\
  (forall u',
     List.In u' online <->
     exists c', JsMap.get u' (userSockets st') = Some c') /\
  NoDup (map fst snapshot) /\
  (forall u' a,
     List.In (u', a) snapshot <->
     JsMap.get u' (userActivities st') = Some a) /\
  (forall u' a,
     List.In (u', a) snapshot <->
     if u =? u' then a = "Idle"
     else JsMap.get u' (userActivities st) = Some a).
Proof.
  intros [Hs Ha Ht] r st' before online snapshot.
  assert (Hgs : forall u',
            JsMap.get u' (JsMap.set u c (userSockets st)) =
            if u =? u' then Some c else JsMap.get u' (userSockets st)).
  { intros u'. destruct (String.eqb_spec u u') as [->|Hne].
    - apply get_set_same.
    - now apply get_set_other. }
  assert (Hga : forall u',
            JsMap.get u' (JsMap.set u "Idle" (userActivities st)) =
            if u =? u' then Some "Idle" else JsMap.get u' (userActivities st)).
  { intros u'. destruct (String.eqb_spec u u') as [->|Hne].
    - apply get_set_same.
    - now apply get_set_other. }
  assert (Honline : JsMap.keys (JsMap.set u c (userSockets st)) = online)
    by apply keys_set_order.
  assert (Hnd : NoDup (JsMap.keys (JsMap.set u "Idle" (userActivities st))))
    by now apply NoDup_keys_set.
  assert (Hsnap : forall u' a,
            List.In (u', a) (JsMap.set u "Idle" (userActivities st)) <->
            JsMap.get u' (JsMap.set u "Idle" (userActivities st)) = Some a).
  { intros u' a. split; [now apply In_get | apply get_In]. }
  subst snapshot st' r. rewrite on_user_connected_eq.
  unfold completion, state_of, output, delivered_to, JsMap.entries.
  cbn [fst snd userSockets userActivities].
  rewrite Honline.
  split; [reflexivity|]. split; [reflexivity|]. split; [reflexivity|].
  split; [exact Hgs|]. split; [exact Hga|]. split; [reflexivity|].
  split; [intros c'; simpl; now destruct (c =? c')|].
  split; [rewrite <- Honline; now apply NoDup_keys_set|].
  split.
  { intros u'. rewrite <- Honline. split.
    - apply keys_get.
    - intros [c' Hc']. eapply get_Some_keys. exact Hc'. }
  split; [exact Hnd|]. split; [exact Hsnap|].
  intros u' a. rewrite Hsnap, Hga.
  destruct (u =? u'); [|reflexivity].
  split; [intros [= <-]; reflexivity | intros ->; reflexivity].
Qed.

Lemma user_connected_binds_witness :
  wf Sample.two_online /\
  output (on_user_connected "s3" "carol" Sample.two_online) =
  [(io_emit, Outbound.user_connected "carol");
   (socket_emit "s3", Outbound.users_online ["alice"; "bob"; "carol"]);
   (io_emit,
    Outbound.activities [("alice", "Idle"); ("bob", "Idle"); ("carol", "Idle")])].
Proof.
  split; [exact wf_two_online|].
  exact (proj1 (proj2 (proj2 (proj2 (proj2 (proj2
    (user_connected_binds Sample.two_online "s3" "carol" wf_two_online))))))).
Defined.

(** ** Directed notifications *)

(** C6: [follow_request] for target [B]: when [B] is bound, exactly one
    [follow_request] carrying the requester's id, name and image (the target
    id left out) goes to the connection of [B] and nothing to any other
    connection; when [B] is not bound nothing is emitted at all, so nothing
    reaches the sender either; the state is unchanged in both cases. *)
Theorem follow_request_directed st socket data :
  wf st ->
  let r := on_follow_request socket data st in
  let target := JsMap.get (FollowRequest.targetUserId data) (userSockets st) in
  let payload :=
    Outbound.follow_request (FollowRequest.requesterId data)
      (FollowRequest.requesterName data) (FollowRequest.requesterImageUrl data) in
  completion r = Normal tt /\
  state_of r = st /\
  output r =
    match target with
    | Some room => [(io_to room, payload)]
    | None => []
    end /\
  forall c,
    delivered_to c (output r) =
    match target with
    | Some room => if room =? c then [payload] else []
    | None => []
    end.
Proof.
  intros Hwf r target payload. subst r target payload.
  rewrite on_follow_request_eq, (directed_wf _ _ _ Hwf).
  unfold completion, state_of, output, delivered_to; simpl.
  repeat split. intros c.
  destruct (JsMap.get (FollowRequest.targetUserId data) (userSockets st)) as [room|];
    simpl; [destruct (room =? c)|]; reflexivity.
Qed.

Lemma follow_request_directed_witness :
  wf Sample.two_online /\
  output (on_follow_request "s1" Sample.follow_bob Sample.two_online) =
  [(io_to "s2", Outbound.follow_request "alice" "Alice" "alice.png")].
Proof.
  split; [exact wf_two_online|].
  exact (proj1 (proj2 (proj2
    (follow_request_directed Sample.two_online "s1" Sample.follow_bob
       wf_two_online)))).
Defined.

(** The identity a socket carries changes only when that socket binds (or a
    new socket of that id shakes hands). *)
Lemma handshake_auth_step socket e st :
  rebinds socket e = false ->
  JsMap.get socket (handshakeAuth (step st e)) = JsMap.get socket (handshakeAuth st).
Proof.
  destruct e as [s ev]. unfold rebinds, step, state_of. simpl fst; simpl snd.
  destruct ev as [a|u|u a|x|d|d|d|d|d [m|err]|]; simpl handle; intros Hs.
  - apply String.eqb_neq in Hs. destruct a as [u|]; simpl.
    + now apply get_set_other.
    + now apply get_delete_other.
  - apply String.eqb_neq in Hs. simpl. now apply get_set_other.
  - reflexivity.
  - reflexivity.
  - now rewrite on_follow_request_eq.
  - now rewrite on_follow_accepted_eq.
  - now rewrite on_follow_back_request_eq.
  - now rewrite on_follow_back_available_eq.
  - now rewrite on_send_message_created_eq.
  - reflexivity.
  - rewrite on_disconnect_eq.
    now destruct (find_disconnected s (userSockets st)).
Qed.

Lemma handshake_auth_run socket trace : forall st,
  forallb (fun e => negb (rebinds socket e)) trace = true ->
  JsMap.get socket (handshakeAuth (run st trace)) = JsMap.get socket (handshakeAuth st).
Proof.
  induction trace as [|e trace IH]; intros st H; simpl in *; [reflexivity|].
  apply andb_true_iff in H as [He Ht]. apply negb_true_iff in He.
  rewrite (IH _ Ht). now apply handshake_auth_step.
Qed.

Lemma NoDup_handshake_step st e :
  NoDup (JsMap.keys (handshakeAuth st)) ->
  NoDup (JsMap.keys (handshakeAuth (step st e))).
Proof.
  intros Hnd. destruct e as [s ev]. unfold step, state_of. simpl fst; simpl snd.
  destruct ev as [a|u|u a|x|d|d|d|d|d [m|err]|]; simpl handle.
  - destruct a as [u|]; simpl.
    + now apply NoDup_keys_set.
    + now apply NoDup_keys_delete.
  - simpl. now apply NoDup_keys_set.
  - exact Hnd.
  - exact Hnd.
  - now rewrite on_follow_request_eq.
  - now rewrite on_follow_accepted_eq.
  - now rewrite on_follow_back_request_eq.
  - now rewrite on_follow_back_available_eq.
  - now rewrite on_send_message_created_eq.
  - exact Hnd.
  - rewrite on_disconnect_eq.
    now destruct (find_disconnected s (userSockets st)).
Qed.

(** One event moves the identity stored on a socket as [carry] says. *)
Lemma carry_step socket st e :
  NoDup (JsMap.keys (handshakeAuth st)) ->
  JsMap.get socket (handshakeAuth (step st e)) =
  carry socket (JsMap.get socket (handshakeAuth st)) e.
Proof.
  intros Hnd. destruct e as [s ev]. unfold carry. simpl fst; simpl snd.
  destruct (rebinds socket (s, ev)) eqn:Hr.
  - unfold rebinds in Hr. simpl fst in Hr; simpl snd in Hr.
    unfold step, state_of. simpl fst; simpl snd.
    destruct ev as [a|u|u a|x|d|d|d|d|d cr|]; try discriminate Hr;
      rewrite Hr; apply String.eqb_eq in Hr; subst s; simpl.
    + destruct a as [u|]; [apply get_set_same | now apply get_delete_same].
    + apply get_set_same.
  - rewrite (handshake_auth_step socket (s, ev) st Hr).
    unfold rebinds in Hr. simpl fst in Hr; simpl snd in Hr.
    destruct (s =? socket); [|reflexivity].
    destruct ev; try reflexivity; discriminate Hr.
Qed.

Lemma carried_run socket trace : forall st,
  NoDup (JsMap.keys (handshakeAuth st)) ->
  JsMap.get socket (handshakeAuth (run st trace)) =
  carried_identity socket (JsMap.get socket (handshakeAuth st)) trace.
Proof.
  unfold carried_identity.
  induction trace as [|e trace IH]; intros st Hnd; simpl; [reflexivity|].
  rewrite (IH _ (NoDup_handshake_step st e Hnd)). now rewrite carry_step.
Qed.

Lemma carried_no_rebinds socket trace : forall start,
  forallb (fun e => negb (rebinds socket e)) trace = true ->
  carried_identity socket start trace = start.
Proof.
  unfold carried_identity.
  induction trace as [|[s ev] trace IH]; intros start H; simpl in *; [reflexivity|].
  apply andb_true_iff in H as [He Ht]. apply negb_true_iff in He.
  rewrite (IH _ Ht). unfold carry, rebinds in *. simpl fst in *; simpl snd in *.
  destruct (s =? socket); [|reflexivity].
  destruct ev; try reflexivity; discriminate He.
Qed.

Lemma carried_last socket before e after start :
  forallb (fun e => negb (rebinds socket e)) after = true ->
  carried_identity socket start (before ++ e :: after) =
  carry socket (carried_identity socket start before) e.
Proof.
  intros H. unfold carried_identity. rewrite fold_left_app. simpl.
  now apply carried_no_rebinds.
Qed.




(** ** Frame *)

(** C10: [profile_updated], [follow_request], [follow_accepted],
    [follow_back_request], [follow_back_available] and [send_message]
    (whether the message was created or the creation failed) leave the
    registry and the activity map as they were. *)
Theorem routing_events_keep_registries st socket :
  (forall updatedUser,
     state_of (on_profile_updated socket updatedUser st) = st) /\
  (forall data, state_of (on_follow_request socket data st) = st) /\
  (forall data, state_of (on_follow_accepted socket data st) = st) /\
  (forall data, state_of (on_follow_back_request socket data st) = st) /\
  (forall data, state_of (on_follow_back_available socket data st) = st) /\
  (forall data created, state_of (on_send_message socket data created st) = st) /\
  (forall ev,
     match ev with
     | Inbound.connection _ | Inbound.user_connected _
     | Inbound.update_activity _ _ | Inbound.disconnect => True
     | _ =>
         userSockets (step st (socket, ev)) = userSockets st /\
         userActivities (step st (socket, ev)) = userActivities st
     end).
Proof.
  assert (Hsend : forall data created,
            state_of (on_send_message socket data created st) = st).
  { intros data [m|e].
    - now rewrite on_send_message_created_eq.
    - reflexivity. }
  repeat split; try reflexivity; intros.
  - now rewrite on_follow_request_eq.
  - now rewrite on_follow_accepted_eq.
  - now rewrite on_follow_back_request_eq.
  - now rewrite on_follow_back_available_eq.
  - apply Hsend.
  - pose proof (step_registries socket ev st) as H. unfold step; simpl fst; simpl snd.
    destruct ev; try exact I; exact H.
Qed.

(** ** The registry along a trace *)

Lemma NoDup_step st e :
  NoDup (JsMap.keys (userSockets st)) ->
  NoDup (JsMap.keys (userSockets (step st e))).
Proof.
  intros Hnd. destruct e as [socket ev].
  pose proof (step_registries socket ev st) as H. cbv zeta in H.
  unfold step. simpl fst. simpl snd.
  destruct ev as [a|u|u a|x|d|d|d|d|d c|];
    try (destruct H as [Hus _]; rewrite Hus; auto using NoDup_keys_set).
  destruct (find_disconnected socket (userSockets st)) as [u0|];
    destruct H as [Hus _]; rewrite Hus; auto using NoDup_keys_delete.
Qed.

(** An entry present after an event was there before, or the event is the
    bind that wrote it. *)
Lemma step_get st e u c :
  NoDup (JsMap.keys (userSockets st)) ->
  JsMap.get u (userSockets (step st e)) = Some c ->
  JsMap.get u (userSockets st) = Some c \/ e = (c, Inbound.user_connected u).
Proof.
  intros Hnd. destruct e as [socket ev].
  pose proof (step_registries socket ev st) as H. cbv zeta in H.
  unfold step. simpl fst. simpl snd.
  destruct ev as [a|u0|u0 a|x|d|d|d|d|d cr|];
    try (destruct H as [Hus _]; rewrite Hus; now left).
  - destruct H as [Hus _]. rewrite Hus.
    destruct (String.eqb_spec u0 u) as [->|Hne].
    + rewrite get_set_same. intros [= ->]. now right.
    + rewrite get_set_other by assumption. now left.
  - destruct (find_disconnected socket (userSockets st)) as [u0|];
      destruct H as [Hus _]; rewrite Hus; [|now left].
    destruct (String.eqb_spec u0 u) as [->|Hne].
    + rewrite get_delete_same by assumption. discriminate.
    + rewrite get_delete_other by assumption. now left.
Qed.

Lemma NoDup_run trace : forall st,
  NoDup (JsMap.keys (userSockets st)) ->
  NoDup (JsMap.keys (userSockets (run st trace))).
Proof.
  induction trace as [|e trace IH]; intros st Hnd; simpl; [assumption|].
  apply IH. now apply NoDup_step.
Qed.

Lemma run_get trace : forall st u c,
  NoDup (JsMap.keys (userSockets st)) ->
  JsMap.get u (userSockets (run st trace)) = Some c ->
  JsMap.get u (userSockets st) = Some c \/
  List.In (c, Inbound.user_connected u) trace.
Proof.
  induction trace as [|e trace IH]; intros st u c Hnd Hg; simpl in *.
  - now left.
  - destruct (IH _ u c (NoDup_step st e Hnd) Hg) as [H|H].
    + destruct (step_get st e u c Hnd H) as [H'|H']; [now left | right; now left].
    + right. now right.
Qed.

(** C3, as the code has it: over every sequence of inbound events from the
    empty registry in which no socket binds two different identities, no two
    identities of the registry hold the same connection. *)
Theorem registry_connections_distinct trace :
  one_identity_per_socket trace ->
  connections_distinct (userSockets (run initializeSocket trace)).
Proof.
  intros Hone u1 u2 c H1 H2.
  assert (Hnd : NoDup (JsMap.keys (userSockets initializeSocket)))
    by (simpl; constructor).
  destruct (run_get _ _ _ _ Hnd H1) as [H|H]; [discriminate|].
  destruct (run_get _ _ _ _ Hnd H2) as [H'|H']; [discriminate|].
  exact (Hone c u1 u2 H H').
Qed.

Lemma registry_connections_distinct_witness :
  one_identity_per_socket
    [("s1", Inbound.user_connected "alice"); ("s2", Inbound.user_connected "bob");
     ("s1", Inbound.disconnect)] /\
  connections_distinct
    (userSockets
       (run initializeSocket
          [("s1", Inbound.user_connected "alice");
           ("s2", Inbound.user_connected "bob"); ("s1", Inbound.disconnect)])).
Proof.
  assert (H : one_identity_per_socket
    [("s1", Inbound.user_connected "alice"); ("s2", Inbound.user_connected "bob");
     ("s1", Inbound.disconnect)]).
  { intros s u1 u2 H1 H2. simpl in H1, H2.
    destruct H1 as [[= <- <-]|[[= <- <-]|[H1|[]]]]; try discriminate H1;
      destruct H2 as [[= <-]|[[= <-]|[H2|[]]]]; try discriminate H2;
      try reflexivity; discriminate. }
  split; [exact H|].
  exact (registry_connections_distinct _ H).
Defined.

(** C3, as stated, fails: one socket that binds two identities leaves two
    registry entries holding that one connection. *)
Lemma registry_connection_shared :
  let st :=
    run initializeSocket
      [("s1", Inbound.user_connected "alice"); ("s1", Inbound.user_connected "bob")] in
  userSockets st = [("alice", "s1"); ("bob", "s1")] /\
  ~ connections_distinct (userSockets st).
Proof.
  split; [reflexivity|].
  intros H. specialize (H "alice" "bob" "s1" eq_refl eq_refl). discriminate.
Qed.

(** ** Membership of the two maps *)

Lemma presence_has_activity_step st e :
  NoDup (JsMap.keys (userSockets st)) ->
  incl (JsMap.keys (userSockets st)) (JsMap.keys (userActivities st)) ->
  incl (JsMap.keys (userSockets (step st e)))
       (JsMap.keys (userActivities (step st e))).
Proof.
  intros Hnd Hincl. destruct e as [socket ev].
  pose proof (step_registries socket ev st) as H. cbv zeta in H.
  unfold step. simpl fst. simpl snd.
  destruct ev as [a|u0|u0 a|x|d|d|d|d|d cr|];
    try (destruct H as [Hus Hua]; rewrite Hus, Hua; assumption).
  - destruct H as [Hus Hua]. rewrite Hus, Hua. intros u.
    rewrite !in_keys_set. intros [->|Hin]; [now left | right; now apply Hincl].
  - destruct H as [Hus Hua]. rewrite Hus, Hua. intros u Hin.
    apply in_keys_set. right. now apply Hincl.
  - destruct (find_disconnected socket (userSockets st)) as [u0|];
      destruct H as [Hus Hua]; rewrite Hus, Hua; [|assumption].
    intros u Hin.
    assert (Hne : u0 <> u).
    { intros ->. apply keys_get in Hin as [v Hv].
      rewrite get_delete_same in Hv by assumption. discriminate. }
    apply in_keys_delete_other; [assumption|].
    apply Hincl. eapply in_keys_delete. exact Hin.
Qed.

Lemma presence_has_activity_run trace : forall st,
  NoDup (JsMap.keys (userSockets st)) ->
  incl (JsMap.keys (userSockets st)) (JsMap.keys (userActivities st)) ->
  incl (JsMap.keys (userSockets (run st trace)))
       (JsMap.keys (userActivities (run st trace))).
Proof.
  induction trace as [|e trace IH]; intros st Hnd Hincl; simpl; [assumption|].
  apply IH; [now apply NoDup_step | now apply presence_has_activity_step].
Qed.

Lemma activity_has_presence_step st e :
  NoDup (JsMap.keys (userActivities st)) ->
  names_bound st e = true ->
  incl (JsMap.keys (userActivities st)) (JsMap.keys (userSockets st)) ->
  incl (JsMap.keys (userActivities (step st e)))
       (JsMap.keys (userSockets (step st e))).
Proof.
  intros Hnd Hb Hincl. destruct e as [socket ev].
  pose proof (step_registries socket ev st) as H. cbv zeta in H.
  unfold names_bound in Hb. simpl snd in Hb.
  unfold step. simpl fst. simpl snd.
  destruct ev as [a|u0|u0 a|x|d|d|d|d|d cr|];
    try (destruct H as [Hus Hua]; rewrite Hus, Hua; assumption).
  - destruct H as [Hus Hua]. rewrite Hus, Hua. intros u.
    rewrite !in_keys_set. intros [->|Hin]; [now left | right; now apply Hincl].
  - destruct H as [Hus Hua]. rewrite Hus, Hua. intros u.
    rewrite in_keys_set. intros [->|Hin]; [|now apply Hincl].
    destruct (JsMap.get u0 (userSockets st)) as [c|] eqn:E; [|discriminate].
    eapply get_Some_keys. exact E.
  - destruct (find_disconnected socket (userSockets st)) as [u0|];
      destruct H as [Hus Hua]; rewrite Hus, Hua; [|assumption].
    intros u Hin.
    assert (Hne : u0 <> u).
    { intros ->. apply keys_get in Hin as [v Hv].
      rewrite get_delete_same in Hv by assumption. discriminate. }
    apply in_keys_delete_other; [assumption|].
    apply Hincl. eapply in_keys_delete. exact Hin.
Qed.

Lemma NoDup_activities_after st e :
  NoDup (JsMap.keys (userActivities st)) ->
  NoDup (JsMap.keys (userActivities (step st e))).
Proof.
  intros Hnd. destruct e as [socket ev].
  pose proof (step_registries socket ev st) as H. cbv zeta in H.
  unfold step. simpl fst. simpl snd.
  destruct ev as [a|u|u a|x|d|d|d|d|d c|];
    try (destruct H as [_ Hua]; rewrite Hua; auto using NoDup_keys_set).
  destruct (find_disconnected socket (userSockets st)) as [u0|];
    destruct H as [_ Hua]; rewrite Hua; auto using NoDup_keys_delete.
Qed.

Lemma activity_has_presence_run trace : forall st,
  NoDup (JsMap.keys (userActivities st)) ->
  updates_bound st trace = true ->
  incl (JsMap.keys (userActivities st)) (JsMap.keys (userSockets st)) ->
  incl (JsMap.keys (userActivities (run st trace)))
       (JsMap.keys (userSockets (run st trace))).
Proof.
  induction trace as [|e trace IH]; intros st Hnd Hb Hincl; simpl in *;
    [assumption|].
  apply andb_true_iff in Hb as [He Hrest].
  apply IH;
    [now apply NoDup_activities_after | exact Hrest
    | now apply activity_has_presence_step].
Qed.

(** C8, as the code has it: after every sequence of inbound events from the
    initial state every identity with a presence entry has an activity
    entry; and when every [update_activity] of the sequence named an
    identity that had a presence entry at the time it was handled, the two
    maps have the same membership: every identity with an activity entry
    has a presence entry as well.  Both maps are written in the same
    handler on a bind, so there is no window between the two. *)
Theorem presence_matches_activity trace :
  (forall u,
     List.In u (JsMap.keys (userSockets (run initializeSocket trace))) ->
     List.In u (JsMap.keys (userActivities (run initializeSocket trace)))) /\
  (updates_bound initializeSocket trace = true ->
   forall u,
     List.In u (JsMap.keys (userSockets (run initializeSocket trace))) <->
     List.In u (JsMap.keys (userActivities (run initializeSocket trace)))).
Proof.
  assert (Hempty : NoDup (@nil string)) by constructor.
  assert (Hfwd : incl (JsMap.keys (userSockets (run initializeSocket trace)))
                      (JsMap.keys (userActivities (run initializeSocket trace)))).
  { apply (presence_has_activity_run trace initializeSocket).
    - exact Hempty.
    - intros x []. }
  split; [exact Hfwd|].
  intros Hb u. split; [apply Hfwd|].
  apply (activity_has_presence_run trace initializeSocket).
  - exact Hempty.
  - exact Hb.
  - intros x [].
Qed.

Lemma presence_matches_activity_witness :
  updates_bound initializeSocket
    [("s1", Inbound.user_connected "alice");
     ("s2", Inbound.update_activity "alice" "Playing")] = true /\
  List.In "alice"
    (JsMap.keys
       (userSockets
          (run initializeSocket
             [("s1", Inbound.user_connected "alice");
              ("s2", Inbound.update_activity "alice" "Playing")]))).
Proof.
  split; [reflexivity|].
  apply (proj2 (presence_matches_activity
           [("s1", Inbound.user_connected "alice");
            ("s2", Inbound.update_activity "alice" "Playing")]) eq_refl "alice").
  simpl. now left.
Defined.

(** C8, as stated, fails in the other direction: [update_activity] stores a
    label for any identity, bound or not, and a label set after the
    identity's disconnect stays. *)
Lemma activity_without_presence :
  let st := run initializeSocket [("s1", Inbound.update_activity "alice" "Playing")] in
  JsMap.keys (userActivities st) = ["alice"] /\
  JsMap.keys (userSockets st) = [] /\
  ~ (forall u, List.In u (JsMap.keys (userActivities st)) ->
               List.In u (JsMap.keys (userSockets st))).
Proof.
  split; [reflexivity|]. split; [reflexivity|].
  intros H. exact (H "alice" (or_introl eq_refl)).
Qed.

(** ** Reconnects *)

Lemma rooms_app out1 out2 : rooms (out1 ++ out2) = rooms out1 ++ rooms out2.
Proof.
  induction out1 as [|[d e] out1 IH]; simpl; [reflexivity|].
  destruct d; simpl; now rewrite IH.
Qed.

Lemma rooms_directed u e st room :
  List.In room (rooms (directed u e st)) ->
  exists userId, u = Some userId /\ JsMap.get userId (userSockets st) = Some room.
Proof.
  unfold directed. destruct u as [userId|]; [|intros []].
  destruct (JsMap.get userId (userSockets st)) as [r|] eqn:E; [|intros []].
  destruct (truthy r); simpl; [|intros []].
  intros [->|[]]. now exists userId.
Qed.

(** Every [io.to(room)] of a handler is the registry entry of the identity
    the handler routes by. *)
Lemma rooms_of_handle st socket ev room :
  List.In room (rooms (output (handle socket ev st))) ->
  exists userId,
    routing_identity st socket ev = Some userId /\
    JsMap.get userId (userSockets st) = Some room.
Proof.
  destruct ev as [a|u|u a|x|d|d|d|d|d [m|err]|]; simpl handle; simpl routing_identity.
  - intros [].
  - intros [].
  - intros [].
  - intros [].
  - rewrite on_follow_request_eq. apply rooms_directed.
  - rewrite on_follow_accepted_eq. apply rooms_directed.
  - rewrite on_follow_back_request_eq. apply rooms_directed.
  - rewrite on_follow_back_available_eq. apply rooms_directed.
  - rewrite on_send_message_created_eq. unfold output; cbn [snd].
    rewrite rooms_app. cbn [rooms]. rewrite app_nil_r. apply rooms_directed.
  - intros [].
  - rewrite on_disconnect_eq.
    destruct (find_disconnected socket (userSockets st)) as [u|]; [|intros []].
    unfold output; simpl. destruct (truthy u); intros [].
Qed.

(** C9, as the code has it: after [c1] and then [c2] bind [u], lookup of [u]
    gives [c2] and [u] has one presence entry; and at every later state
    reached without [c1] binding [u] again, no identity has two presence
    entries, the entry of [u] is not [c1] and no handler that routes by [u]
    addresses the room of [c1]. *)
Theorem last_bind_wins st c1 c2 u trace :
  wf st ->
  c1 <> c2 ->
  never_binds c1 u trace ->
  let st2 :=
    run st [(c1, Inbound.user_connected u); (c2, Inbound.user_connected u)] in
  let st' := run st2 trace in
  JsMap.get u (userSockets st2) = Some c2 /\
  count_occ string_dec (JsMap.keys (userSockets st2)) u = 1 /\
  NoDup (JsMap.keys (userSockets st')) /\
  JsMap.get u (userSockets st') <> Some c1 /\
  forall socket ev,
    routing_identity st' socket ev = Some u ->
    ~ List.In c1 (rooms (output (handle socket ev st'))).
Proof.
  intros Hwf Hne Hnever st2 st'.
  assert (Hnd2 : NoDup (JsMap.keys (userSockets st2))).
  { subst st2. apply NoDup_run. exact (wf_sockets _ Hwf). }
  assert (Hget2 : JsMap.get u (userSockets st2) = Some c2).
  { subst st2. simpl. unfold step, state_of. simpl. apply get_set_same. }
  assert (Hlater : JsMap.get u (userSockets st') <> Some c1).
  { subst st'. intros Hg.
    destruct (run_get _ _ _ _ Hnd2 Hg) as [H|H].
    - rewrite Hget2 in H. congruence.
    - exact (Hnever H). }
  split; [exact Hget2|].
  split; [|split; [|split]].
  - apply NoDup_count_occ'; [assumption|]. eapply get_Some_keys. exact Hget2.
  - subst st'. now apply NoDup_run.
  - exact Hlater.
  - intros socket ev Hroute Hin.
    destruct (rooms_of_handle _ _ _ _ Hin) as (u' & Hr & Hg).
    rewrite Hroute in Hr. injection Hr as <-. contradiction.
Qed.

Lemma last_bind_wins_witness :
  wf initializeSocket /\ "c1" <> "c2" /\
  never_binds "c1" "alice" [("c1", Inbound.disconnect)] /\
  JsMap.get "alice"
    (userSockets
       (run initializeSocket
          [("c1", Inbound.user_connected "alice");
           ("c2", Inbound.user_connected "alice"); ("c1", Inbound.disconnect)]))
  <> Some "c1".
Proof.
  assert (Hne : "c1" <> "c2") by discriminate.
  assert (Hnever : never_binds "c1" "alice" [("c1", Inbound.disconnect)]).
  { intros [H|[]]. discriminate H. }
  split; [exact wf_initial|]. split; [exact Hne|]. split; [exact Hnever|].
  exact (proj1 (proj2 (proj2 (proj2
    (last_bind_wins initializeSocket "c1" "c2" "alice"
       [("c1", Inbound.disconnect)] wf_initial Hne Hnever))))).
Defined.

(** C9, as stated, fails: when the first connection binds the identity
    again, the entry points at it again and the next directed event for the
    identity is sent to it. *)
Lemma first_connection_contacted_again :
  let st' :=
    run initializeSocket
      [("c1", Inbound.user_connected "alice");
       ("c2", Inbound.user_connected "alice");
       ("c1", Inbound.user_connected "alice")] in
  JsMap.get "alice" (userSockets st') = Some "c1" /\
  output (on_follow_request "c3"
            (FollowRequest.mk "alice" "bob" "Bob" "bob.png") st') =
  [(io_to "c1", Outbound.follow_request "bob" "Bob" "bob.png")].
Proof. split; reflexivity. Qed.

(** ** Unbinding *)

(** What the scan finds is the first entry holding the socket. *)
Lemma find_disconnected_first socket m u :
  find_disconnected socket m = Some u ->
  exists before after,
    m = before ++ (u, socket) :: after /\
    find_disconnected socket before = None.
Proof.
  induction m as [|[k0 v0] m IH]; simpl; [discriminate|].
  destruct (String.eqb_spec v0 socket) as [->|Hne].
  - intros [= ->]. now exists [], m.
  - intros H. destruct (IH H) as (before & after & -> & Hb).
    exists ((k0, v0) :: before), after. split; [reflexivity|].
    simpl. apply String.eqb_neq in Hne. now rewrite Hne.
Qed.

(** C4, as the code has it: on the disconnect of connection [c], when some
    identity's stored connection is [c], the presence entry of the first
    such identity in insertion order and that identity's activity entry are
    removed and nothing else changes (so never an entry that holds another
    connection), lookup of that identity then returns none, and
    [user_disconnected] with that identity is broadcast exactly once
    provided the identity is a non-empty string; when no identity's stored
    connection is [c], the state is unchanged and nothing is emitted. *)
Theorem disconnect_unbinds st c :
  wf st ->
  let r := on_disconnect c st in
  let st' := state_of r in
  completion r = Normal tt /\
  ((exists u, JsMap.get u (userSockets st) = Some c) <->
   find_disconnected c (userSockets st) <> None) /\
  (forall u' c',
     JsMap.get u' (userSockets st) = Some c' -> c' <> c ->
     JsMap.get u' (userSockets st') = Some c') /\
  match find_disconnected c (userSockets st) with
  | Some u =>
      JsMap.get u (userSockets st) = Some c /\
      (exists before after,
         userSockets st = before ++ (u, c) :: after /\
         find_disconnected c before = None) /\
      userSockets st' = JsMap.delete u (userSockets st) /\
      userActivities st' = JsMap.delete u (userActivities st) /\
      JsMap.get u (userSockets st') = None /\
      JsMap.get u (userActivities st') = None /\
      (forall u',
         u' <> u ->
         JsMap.get u' (userSockets st') = JsMap.get u' (userSockets st) /\
         JsMap.get u' (userActivities st') = JsMap.get u' (userActivities st)) /\
      (truthy u = true ->
       output r = [(io_emit, Outbound.user_disconnected u)])
  | None =>
      st' = st /\ output r = []
  end.
Proof.
  intros [Hs Ha Ht] r st'. subst st' r. rewrite on_disconnect_eq.
  pose proof (find_disconnected_unbound c (userSockets st) Hs) as Hunb.
  destruct (find_disconnected c (userSockets st)) as [u|] eqn:Hfind;
    unfold completion, state_of, output; simpl.
  - pose proof (find_disconnected_get _ _ _ Hs Hfind) as Hget.
    split; [reflexivity|]. split; [|split].
    + split; [discriminate | intros _; now exists u].
    + intros u' c' Hg Hc. rewrite get_delete_other; [assumption|].
      intros <-. congruence.
    + split; [assumption|].
      split; [now apply find_disconnected_first|].
      split; [reflexivity|]. split; [reflexivity|].
      split; [now apply get_delete_same|].
      split; [now apply get_delete_same|].
      split.
      * intros u' Hne. split; apply get_delete_other; congruence.
      * intros ->. reflexivity.
  - split; [reflexivity|]. split; [|split].
    + split; [|congruence]. intros [u Hu]. exfalso.
      exact (proj1 Hunb eq_refl u Hu).
    + intros u' c' Hg _. assumption.
    + now split.
Qed.

Lemma disconnect_unbinds_witness :
  wf Sample.two_online /\
  (state_of (on_disconnect "s1" Sample.two_online) =
   mkServer [("bob", "s2")] [("bob", "Idle")] [("s1", "alice"); ("s2", "bob")]) /\
  truthy "alice" = true /\
  output (on_disconnect "s1" Sample.two_online) =
    [(io_emit, Outbound.user_disconnected "alice")].
Proof.
  split; [exact wf_two_online|]. split; [reflexivity|]. split; [reflexivity|].
  pose proof (disconnect_unbinds Sample.two_online "s1" wf_two_online) as H.
  exact (proj2 (proj2 (proj2 (proj2 (proj2 (proj2 (proj2
           (proj2 (proj2 (proj2 H))))))))) eq_refl).
Defined.

(** C4, as stated, fails twice.  When one socket has bound two identities,
    its disconnect removes the first and leaves the second, whose stored
    connection is the closed socket: its entries stay, lookup still gives
    the closed socket, and no [user_disconnected] names it.  And when the
    identity removed is the empty string, the [if (disconnectedUserId)]
    test is false and nothing is broadcast. *)
Lemma disconnect_leaves_entry_or_stays_silent :
  (let st :=
     run initializeSocket
       [("s1", Inbound.user_connected "alice");
        ("s1", Inbound.user_connected "bob")] in
   let r := on_disconnect "s1" st in
   JsMap.get "bob" (userSockets st) = Some "s1" /\
   JsMap.get "bob" (userSockets (state_of r)) = Some "s1" /\
   JsMap.get "bob" (userActivities (state_of r)) = Some "Idle" /\
   output r = [(io_emit, Outbound.user_disconnected "alice")]) /\
  (let st := run initializeSocket [("s1", Inbound.user_connected "")] in
   let r := on_disconnect "s1" st in
   JsMap.get "" (userSockets st) = Some "s1" /\
   JsMap.get "" (userSockets (state_of r)) = None /\
   output r = []).
Proof. repeat split; reflexivity. Qed.

(** * Further properties of the handlers *)

(** ** More facts about [JsMap] *)

Lemma set_set {V : Type} k (a b : V) (m : JsMap.t V) :
  JsMap.set k b (JsMap.set k a m) = JsMap.set k b m.
Proof.
  induction m as [|[k0 v0] m IH]; simpl.
  - now rewrite String.eqb_refl.
  - destruct (k0 =? k) eqn:E; simpl.
    + now rewrite String.eqb_refl.
    + now rewrite E, IH.
Qed.

Lemma set_absent {V : Type} k (v : V) (m : JsMap.t V) :
  ~ List.In k (JsMap.keys m) -> JsMap.set k v m = m ++ [(k, v)].
Proof.
  induction m as [|[k0 v0] m IH]; simpl; intros Hnin; [reflexivity|].
  destruct (String.eqb_spec k0 k) as [->|Hne].
  - exfalso. apply Hnin. now left.
  - f_equal. apply IH. tauto.
Qed.

Lemma keys_set_present {V : Type} k (v : V) (m : JsMap.t V) :
  List.In k (JsMap.keys m) -> JsMap.keys (JsMap.set k v m) = JsMap.keys m.
Proof.
  induction m as [|[k0 v0] m IH]; simpl; [tauto|].
  destruct (String.eqb_spec k0 k) as [->|Hne]; simpl.
  - reflexivity.
  - intros [H|H]; [congruence|]. f_equal. now apply IH.
Qed.

Lemma delete_appended {V : Type} k (v : V) (m : JsMap.t V) :
  ~ List.In k (JsMap.keys m) -> JsMap.delete k (m ++ [(k, v)]) = m.
Proof.
  induction m as [|[k0 v0] m IH]; simpl; intros Hnin.
  - now rewrite String.eqb_refl.
  - destruct (String.eqb_spec k0 k) as [->|Hne].
    + exfalso. apply Hnin. now left.
    + f_equal. apply IH. tauto.
Qed.

Lemma find_disconnected_appended socket u m :
  find_disconnected socket m = None ->
  find_disconnected socket (m ++ [(u, socket)]) = Some u.
Proof.
  induction m as [|[k0 v0] m IH]; simpl.
  - now rewrite String.eqb_refl.
  - destruct (v0 =? socket); [discriminate | exact IH].
Qed.

(** ** Activity updates *)

(** X1: [update_activity] stores the label for the named identity, whoever
    sends it and whether or not the identity is online, leaves every other
    label, the registry and the sockets' identities alone, and sends one
    [activity_updated] with the identity and the label to every
    connection. *)
Theorem update_activity_upserts st socket u a :
  let r := on_update_activity socket u a st in
  let st' := state_of r in
  completion r = Normal tt /\
  userSockets st' = userSockets st /\
  handshakeAuth st' = handshakeAuth st /\
  (forall u',
     JsMap.get u' (userActivities st') =
     if u =? u' then Some a else JsMap.get u' (userActivities st)) /\
  (NoDup (JsMap.keys (userActivities st)) ->
   NoDup (JsMap.keys (userActivities st'))) /\
  output r = [(io_emit, Outbound.activity_updated u a)] /\
  forall c, delivered_to c (output r) = [Outbound.activity_updated u a].
Proof.
  intros r st'. subst st' r. rewrite on_update_activity_eq.
  unfold completion, state_of, output, delivered_to; simpl.
  repeat split.
  - intros u'. destruct (String.eqb_spec u u') as [->|Hne].
    + apply get_set_same.
    + now apply get_set_other.
  - apply NoDup_keys_set.
Qed.

(** X2: two [update_activity] events for one identity leave the state that
    the second alone would leave (the last label wins, and repeating a
    label changes nothing more), while both are broadcast, in order: the
    broadcasts are not deduplicated. *)
Theorem update_activity_last_wins st s1 s2 u a b :
  let both :=
    [(s1, Inbound.update_activity u a); (s2, Inbound.update_activity u b)] in
  run st both = run st [(s2, Inbound.update_activity u b)] /\
  JsMap.get u (userActivities (run st both)) = Some b /\
  run_output st both =
    [(io_emit, Outbound.activity_updated u a);
     (io_emit, Outbound.activity_updated u b)].
Proof.
  simpl. unfold step, state_of. simpl.
  repeat split.
  - now rewrite set_set.
  - apply get_set_same.
Qed.

(** ** The other directed notifications *)

(** X3: [follow_accepted] goes to the connection of [requesterId]: when
    that identity is bound, exactly one [follow_accepted] with the
    accepter's id, name and image (the requester id left out) is sent to its
    connection and nothing to any other; when it is not bound nothing is
    emitted; the state is unchanged. *)
Theorem follow_accepted_directed st socket data :
  wf st ->
  let r := on_follow_accepted socket data st in
  let target := JsMap.get (FollowAccepted.requesterId data) (userSockets st) in
  let payload :=
    Outbound.follow_accepted (FollowAccepted.accepterId data)
      (FollowAccepted.accepterName data) (FollowAccepted.accepterImageUrl data) in
  completion r = Normal tt /\
  state_of r = st /\
  output r =
    match target with
    | Some room => [(io_to room, payload)]
    | None => []
    end /\
  forall c,
    delivered_to c (output r) =
    match target with
    | Some room => if room =? c then [payload] else []
    | None => []
    end.
Proof.
  intros Hwf r target payload. subst r target payload.
  rewrite on_follow_accepted_eq, (directed_wf _ _ _ Hwf).
  unfold completion, state_of, output, delivered_to; simpl.
  repeat split. intros c.
  destruct (JsMap.get (FollowAccepted.requesterId data) (userSockets st)) as [room|];
    simpl; [destruct (room =? c)|]; reflexivity.
Qed.

Lemma follow_accepted_directed_witness :
  wf Sample.two_online /\
  output (on_follow_accepted "s2"
            (FollowAccepted.mk "alice" "bob" "Bob" "bob.png") Sample.two_online) =
  [(io_to "s1", Outbound.follow_accepted "bob" "Bob" "bob.png")].
Proof.
  split; [exact wf_two_online|].
  exact (proj1 (proj2 (proj2
    (follow_accepted_directed Sample.two_online "s2"
       (FollowAccepted.mk "alice" "bob" "Bob" "bob.png") wf_two_online)))).
Defined.

(** X4: [follow_back_request] goes to the connection of [targetUserId]:
    when that identity is bound, exactly one [follow_back_request] with the
    requester's id, name and image (the target id left out) is sent to its
    connection and nothing to any other; when it is not bound nothing is
    emitted; the state is unchanged. *)
Theorem follow_back_request_directed st socket data :
  wf st ->
  let r := on_follow_back_request socket data st in
  let target := JsMap.get (FollowRequest.targetUserId data) (userSockets st) in
  let payload :=
    Outbound.follow_back_request (FollowRequest.requesterId data)
      (FollowRequest.requesterName data) (FollowRequest.requesterImageUrl data) in
  completion r = Normal tt /\
  state_of r = st /\
  output r =
    match target with
    | Some room => [(io_to room, payload)]
    | None => []
    end /\
  forall c,
    delivered_to c (output r) =
    match target with
    | Some room => if room =? c then [payload] else []
    | None => []
    end.
Proof.
  intros Hwf r target payload. subst r target payload.
  rewrite on_follow_back_request_eq, (directed_wf _ _ _ Hwf).
  unfold completion, state_of, output, delivered_to; simpl.
  repeat split. intros c.
  destruct (JsMap.get (FollowRequest.targetUserId data) (userSockets st)) as [room|];
    simpl; [destruct (room =? c)|]; reflexivity.
Qed.

Lemma follow_back_request_directed_witness :
  wf Sample.two_online /\
  output (on_follow_back_request "s1" Sample.follow_bob Sample.two_online) =
  [(io_to "s2", Outbound.follow_back_request "alice" "Alice" "alice.png")].
Proof.
  split; [exact wf_two_online|].
  exact (proj1 (proj2 (proj2
    (follow_back_request_directed Sample.two_online "s1" Sample.follow_bob
       wf_two_online)))).
Defined.

(** ** Invariants of the registries *)

Lemma NoDup_activities_step st e :
  NoDup (JsMap.keys (userActivities st)) ->
  NoDup (JsMap.keys (userActivities (step st e))).
Proof.
  intros Hnd. destruct e as [socket ev].
  pose proof (step_registries socket ev st) as H. cbv zeta in H.
  unfold step. simpl fst. simpl snd.
  destruct ev as [a|u|u a|x|d|d|d|d|d c|];
    try (destruct H as [_ Hua]; rewrite Hua; auto using NoDup_keys_set).
  destruct (find_disconnected socket (userSockets st)) as [u0|];
    destruct H as [_ Hua]; rewrite Hua; auto using NoDup_keys_delete.
Qed.

Lemma all_truthy_step st e :
  truthy (fst e) = true ->
  all_truthy (userSockets st) -> all_truthy (userSockets (step st e)).
Proof.
  intros Hsock Ht. destruct e as [socket ev]. simpl in Hsock.
  pose proof (step_registries socket ev st) as H. cbv zeta in H.
  unfold step. simpl fst. simpl snd.
  destruct ev as [a|u|u a|x|d|d|d|d|d c|];
    try (destruct H as [Hus _]; rewrite Hus; auto using all_truthy_set).
  destruct (find_disconnected socket (userSockets st)) as [u0|];
    destruct H as [Hus _]; rewrite Hus; auto using all_truthy_delete.
Qed.

(** X5: after any sequence of inbound events from the initial state the
    two lists are maps: no identity has two presence entries or two
    activity entries; and when every socket of the sequence has a non-empty
    id, every stored socket id is non-empty, so that the handlers' test
    [if (socketId)] is exactly the test that the identity is bound. *)
Theorem registries_stay_maps trace :
  NoDup (JsMap.keys (userSockets (run initializeSocket trace))) /\
  NoDup (JsMap.keys (userActivities (run initializeSocket trace))) /\
  (sockets_named trace ->
   all_truthy (userSockets (run initializeSocket trace)) /\
   forall u,
     truthy_opt (JsMap.get u (userSockets (run initializeSocket trace))) = true <->
     List.In u (JsMap.keys (userSockets (run initializeSocket trace)))).
Proof.
  assert (Hgen : forall st,
    NoDup (JsMap.keys (userSockets st)) ->
    NoDup (JsMap.keys (userActivities st)) ->
    NoDup (JsMap.keys (userSockets (run st trace))) /\
    NoDup (JsMap.keys (userActivities (run st trace))) /\
    (sockets_named trace -> all_truthy (userSockets st) ->
     all_truthy (userSockets (run st trace)))).
  { induction trace as [|e trace IH]; intros st Hs Ha; simpl.
    - auto.
    - destruct (IH (step st e) (NoDup_step _ _ Hs) (NoDup_activities_step _ _ Ha))
        as (H1 & H2 & H3).
      repeat split; try assumption.
      intros Hn Ht. inversion Hn; subst.
      apply H3; [assumption | now apply all_truthy_step]. }
  assert (Hempty : NoDup (@nil string)) by constructor.
  destruct (Hgen initializeSocket Hempty Hempty) as (H1 & H2 & H3).
  split; [exact H1|]. split; [exact H2|]. intros Hn.
  assert (Ht : all_truthy (userSockets (run initializeSocket trace)))
    by (apply H3; [assumption | constructor]).
  split; [exact Ht|]. intros u. split.
  - intros Hu.
    destruct (JsMap.get u (userSockets (run initializeSocket trace))) as [c|] eqn:E;
      [|discriminate].
    eapply get_Some_keys. exact E.
  - intros Hin. apply keys_get in Hin as [c Hc]. rewrite Hc. simpl.
    eapply all_truthy_get; [exact Ht | exact Hc].
Qed.

Lemma registries_stay_maps_witness :
  sockets_named
    [("s1", Inbound.user_connected "alice"); ("s2", Inbound.user_connected "bob")] /\
  all_truthy (userSockets Sample.two_online).
Proof.
  assert (H : sockets_named
    [("s1", Inbound.user_connected "alice"); ("s2", Inbound.user_connected "bob")])
    by (repeat constructor).
  split; [exact H|].
  exact (proj1 (proj2 (proj2 (registries_stay_maps _)) H)).
Defined.

(** X6: an identity is in the registry only through a bind: whenever, after
    a sequence of events from the initial state, identity [u] maps to
    connection [c], the sequence contains [user_connected u] arriving on
    [c]. *)
Theorem online_only_after_bind trace u c :
  JsMap.get u (userSockets (run initializeSocket trace)) = Some c ->
  List.In (c, Inbound.user_connected u) trace.
Proof.
  intros Hg.
  assert (Hnd : NoDup (JsMap.keys (userSockets initializeSocket)))
    by (simpl; constructor).
  destruct (run_get _ _ _ _ Hnd Hg) as [H|H]; [discriminate | exact H].
Qed.

Lemma online_only_after_bind_witness :
  JsMap.get "bob" (userSockets Sample.two_online) = Some "s2" /\
  List.In ("s2", Inbound.user_connected "bob")
    [("s1", Inbound.user_connected "alice"); ("s2", Inbound.user_connected "bob")].
Proof.
  split; [reflexivity|].
  exact (online_only_after_bind
           [("s1", Inbound.user_connected "alice");
            ("s2", Inbound.user_connected "bob")] "bob" "s2" eq_refl).
Defined.

(** X7: an identity that never bound is never addressed: after a sequence
    of events in which no socket sent [user_connected u], a handler that
    routes by [u] (a follow notification for [u], a message to [u], a
    [follow_back_available] from a socket carrying [u]) sends nothing
    through [io.to]. *)
Theorem never_bound_never_addressed trace u socket ev :
  (forall c, ~ List.In (c, Inbound.user_connected u) trace) ->
  routing_identity (run initializeSocket trace) socket ev = Some u ->
  rooms (output (handle socket ev (run initializeSocket trace))) = [].
Proof.
  intros Hnever Hroute.
  destruct (rooms (output (handle socket ev (run initializeSocket trace))))
    as [|room rest] eqn:E; [reflexivity|].
  exfalso.
  assert (Hin : List.In room
            (rooms (output (handle socket ev (run initializeSocket trace)))))
    by (rewrite E; now left).
  destruct (rooms_of_handle _ _ _ _ Hin) as (u' & Hr & Hg).
  rewrite Hroute in Hr. injection Hr as <-.
  assert (Hnd : NoDup (JsMap.keys (userSockets initializeSocket)))
    by (simpl; constructor).
  destruct (run_get _ _ _ _ Hnd Hg) as [H|H]; [discriminate|].
  exact (Hnever room H).
Qed.

Lemma never_bound_never_addressed_witness :
  (forall c,
     ~ List.In (c, Inbound.user_connected "bob")
         [("s1", Inbound.user_connected "alice")]) /\
  rooms (output (on_send_message "s1" Sample.hello_data (inl Sample.hello)
                   (run initializeSocket [("s1", Inbound.user_connected "alice")])))
  = [].
Proof.
  assert (H : forall c,
            ~ List.In (c, Inbound.user_connected "bob")
                [("s1", Inbound.user_connected "alice")]).
  { intros c [Hc|[]]. discriminate Hc. }
  split; [exact H|].
  exact (never_bound_never_addressed
           [("s1", Inbound.user_connected "alice")] "bob" "s1"
           (Inbound.send_message Sample.hello_data (inl Sample.hello))
           H eq_refl).
Defined.

(** ** Binding and unbinding together *)

(** X8: connect then disconnect is a round trip: when identity [u] has no
    presence and no activity entry and no entry holds socket [c],
    [user_connected u] on [c] followed by the disconnect of [c] leaves both
    maps exactly as they were, and the disconnect announces
    [user_disconnected u] to everyone (for a non-empty [u]). *)
Theorem bind_unbind_round_trip st c u :
  wf st ->
  ~ List.In u (JsMap.keys (userSockets st)) ->
  ~ List.In u (JsMap.keys (userActivities st)) ->
  (forall u', JsMap.get u' (userSockets st) <> Some c) ->
  let bound := step st (c, Inbound.user_connected u) in
  let after := step bound (c, Inbound.disconnect) in
  JsMap.get u (userSockets bound) = Some c /\
  userSockets after = userSockets st /\
  userActivities after = userActivities st /\
  (truthy u = true ->
   output (on_disconnect c bound) = [(io_emit, Outbound.user_disconnected u)]).
Proof.
  intros Hwf Hus Hua Hc bound after.
  assert (Hfresh : find_disconnected c (userSockets st) = None)
    by (apply (find_disconnected_unbound c _ (wf_sockets _ Hwf)); exact Hc).
  assert (Hb : bound =
               mkServer (userSockets st ++ [(u, c)])
                        (userActivities st ++ [(u, "Idle")])
                        (JsMap.set c u (handshakeAuth st))).
  { subst bound. unfold step, state_of. simpl.
    now rewrite (set_absent _ _ _ Hus), (set_absent _ _ _ Hua). }
  assert (Hfind : find_disconnected c (userSockets bound) = Some u)
    by (rewrite Hb; simpl; now apply find_disconnected_appended).
  assert (Hd : on_disconnect c bound =
               (Normal tt,
                mkServer (userSockets st) (userActivities st)
                         (JsMap.set c u (handshakeAuth st)),
                if truthy u then [(io_emit, Outbound.user_disconnected u)] else [])).
  { rewrite on_disconnect_eq, Hfind. rewrite Hb. simpl.
    now rewrite (delete_appended _ _ _ Hus), (delete_appended _ _ _ Hua). }
  split; [|split; [|split]].
  - subst bound. unfold step, state_of. simpl. apply get_set_same.
  - subst after. unfold step. simpl fst; simpl snd. simpl handle. now rewrite Hd.
  - subst after. unfold step. simpl fst; simpl snd. simpl handle. now rewrite Hd.
  - intros Hu. rewrite Hd. unfold output. simpl. now rewrite Hu.
Qed.

Lemma bind_unbind_round_trip_witness :
  wf Sample.two_online /\
  ~ List.In "carol" (JsMap.keys (userSockets Sample.two_online)) /\
  ~ List.In "carol" (JsMap.keys (userActivities Sample.two_online)) /\
  (forall u', JsMap.get u' (userSockets Sample.two_online) <> Some "s3") /\
  userSockets
    (run Sample.two_online
       [("s3", Inbound.user_connected "carol"); ("s3", Inbound.disconnect)]) =
  userSockets Sample.two_online.
Proof.
  assert (H1 : ~ List.In "carol" (JsMap.keys (userSockets Sample.two_online)))
    by (simpl; intuition discriminate).
  assert (H2 : ~ List.In "carol" (JsMap.keys (userActivities Sample.two_online)))
    by (simpl; intuition discriminate).
  assert (H3 : forall u', JsMap.get u' (userSockets Sample.two_online) <> Some "s3").
  { intros u'.
    apply (proj1 (find_disconnected_unbound "s3" _ (wf_sockets _ wf_two_online))).
    reflexivity. }
  split; [exact wf_two_online|]. split; [exact H1|]. split; [exact H2|].
  split; [exact H3|].
  exact (proj1 (proj2
    (bind_unbind_round_trip Sample.two_online "s3" "carol" wf_two_online H1 H2 H3))).
Defined.

(** X9: the [users_online] list sent on a bind keeps the order of first
    binds: an identity that is already online keeps its place (the list of
    identities is unchanged, nothing is duplicated), a new identity comes
    last; the list always contains the binder and everyone who was online
    before. *)
Theorem users_online_order st c u :
  let r := on_user_connected c u st in
  let before := JsMap.keys (userSockets st) in
  let online :=
    if in_dec string_dec u before then before else before ++ [u] in
  JsMap.keys (userSockets (state_of r)) = online /\
  List.In (socket_emit c, Outbound.users_online online) (output r) /\
  List.In u online /\
  incl before online /\
  (NoDup before -> NoDup online).
Proof.
  intros r before online. subst r.
  rewrite on_user_connected_eq. unfold state_of, output; simpl.
  assert (Hkeys : JsMap.keys (JsMap.set u c (userSockets st)) = online).
  { subst online before.
    destruct (in_dec string_dec u (JsMap.keys (userSockets st))) as [Hin|Hnin].
    - now apply keys_set_present.
    - rewrite (set_absent _ _ _ Hnin). unfold JsMap.keys. now rewrite map_app. }
  rewrite Hkeys. split; [reflexivity|]. split; [right; now left|].
  rewrite <- Hkeys. split; [|split].
  - apply in_keys_set. now left.
  - intros x Hx. apply in_keys_set. now right.
  - apply NoDup_keys_set.
Qed.

(** X10: the disconnect of a connection is idempotent once the registry
    holds each connection at most once: after the handler has run for [c]
    no identity maps to [c], and running it again for [c] changes nothing
    and emits nothing. *)
Theorem disconnect_twice st c :
  wf st ->
  connections_distinct (userSockets st) ->
  let st' := state_of (on_disconnect c st) in
  (forall u, JsMap.get u (userSockets st') <> Some c) /\
  on_disconnect c st' = (Normal tt, st', []).
Proof.
  intros Hwf Hdist st'.
  assert (Hnd' : NoDup (JsMap.keys (userSockets st'))).
  { subst st'. rewrite on_disconnect_eq.
    destruct (find_disconnected c (userSockets st)); unfold state_of; simpl.
    - apply NoDup_keys_delete, (wf_sockets _ Hwf).
    - apply (wf_sockets _ Hwf). }
  assert (Hgone : forall u, JsMap.get u (userSockets st') <> Some c).
  { subst st'. rewrite on_disconnect_eq.
    destruct (find_disconnected c (userSockets st)) as [u0|] eqn:Hfind;
      unfold state_of; simpl.
    - intros u Hg.
      pose proof (find_disconnected_get _ _ _ (wf_sockets _ Hwf) Hfind) as Hu0.
      destruct (String.eqb_spec u0 u) as [->|Hne].
      + rewrite get_delete_same in Hg by apply (wf_sockets _ Hwf). discriminate.
      + rewrite get_delete_other in Hg by assumption.
        apply Hne. exact (Hdist u0 u c Hu0 Hg).
    - now apply (find_disconnected_unbound c _ (wf_sockets _ Hwf)). }
  split; [exact Hgone|].
  rewrite on_disconnect_eq.
  now rewrite (proj2 (find_disconnected_unbound c _ Hnd') Hgone).
Qed.

Lemma disconnect_twice_witness :
  wf Sample.two_online /\
  connections_distinct (userSockets Sample.two_online) /\
  on_disconnect "s1" (state_of (on_disconnect "s1" Sample.two_online)) =
  (Normal tt, state_of (on_disconnect "s1" Sample.two_online), []).
Proof.
  assert (H : connections_distinct (userSockets Sample.two_online)).
  { intros u1 u2 c Hg1 Hg2. apply get_In in Hg1, Hg2.
    change (userSockets Sample.two_online)
      with [("alice", "s1"); ("bob", "s2")] in Hg1, Hg2.
    destruct Hg1 as [Hg1|[Hg1|[]]]; destruct Hg2 as [Hg2|[Hg2|[]]]; congruence. }
  split; [exact wf_two_online|]. split; [exact H|].
  exact (proj2 (disconnect_twice Sample.two_online "s1" wf_two_online H)).
Defined.

(** ** What changes an entry, and who hears what *)

Lemma persists_step st e u c :
  NoDup (JsMap.keys (userSockets st)) ->
  touches u c e = false ->
  JsMap.get u (userSockets st) = Some c ->
  JsMap.get u (userSockets (step st e)) = Some c.
Proof.
  intros Hnd Ht Hg. destruct e as [socket ev].
  pose proof (step_registries socket ev st) as H. cbv zeta in H.
  unfold touches in Ht. simpl fst in Ht; simpl snd in Ht.
  unfold step. simpl fst. simpl snd.
  destruct ev as [a|u0|u0 a|x|d|d|d|d|d cr|];
    try (destruct H as [Hus _]; rewrite Hus; assumption).
  - destruct H as [Hus _]. rewrite Hus.
    apply String.eqb_neq in Ht. now rewrite get_set_other.
  - apply String.eqb_neq in Ht.
    destruct (find_disconnected socket (userSockets st)) as [u0|] eqn:Hfind;
      destruct H as [Hus _]; rewrite Hus; [|assumption].
    pose proof (find_disconnected_get _ _ _ Hnd Hfind) as Hu0.
    rewrite get_delete_other; [assumption|].
    intros ->. congruence.
Qed.

Lemma persists_run trace : forall st u c,
  NoDup (JsMap.keys (userSockets st)) ->
  JsMap.get u (userSockets st) = Some c ->
  forallb (fun e => negb (touches u c e)) trace = true ->
  JsMap.get u (userSockets (run st trace)) = Some c.
Proof.
  induction trace as [|e trace IH]; intros st u c Hnd Hg Hall; simpl in *.
  - exact Hg.
  - apply andb_true_iff in Hall as [He Hrest]. apply negb_true_iff in He.
    apply IH; [now apply NoDup_step | now apply persists_step | exact Hrest].
Qed.

(** X11: a registry entry is changed only by a bind of its identity or by
    the disconnect of the connection it holds: along any sequence of events
    with neither, the identity keeps mapping to that connection, whatever
    other sockets bind, disconnect or send.  In particular an entry whose
    connection already closed stays until its identity binds again. *)
Theorem entry_persists st trace u c :
  wf st ->
  JsMap.get u (userSockets st) = Some c ->
  forallb (fun e => negb (touches u c e)) trace = true ->
  JsMap.get u (userSockets (run st trace)) = Some c.
Proof.
  intros Hwf Hg Hall.
  apply persists_run; [apply (wf_sockets _ Hwf) | exact Hg | exact Hall].
Qed.

Lemma entry_persists_witness :
  wf Sample.two_online /\
  JsMap.get "bob" (userSockets Sample.two_online) = Some "s2" /\
  JsMap.get "bob"
    (userSockets
       (run Sample.two_online
          [("s1", Inbound.disconnect); ("s3", Inbound.user_connected "carol")])) =
  Some "s2".
Proof.
  split; [exact wf_two_online|]. split; [reflexivity|].
  exact (entry_persists Sample.two_online
           [("s1", Inbound.disconnect); ("s3", Inbound.user_connected "carol")]
           "bob" "s2" wf_two_online eq_refl eq_refl).
Defined.

Lemma In_directed userId ev st d e :
  List.In (d, e) (directed userId ev st) ->
  exists u room,
    userId = Some u /\ d = io_to room /\
    JsMap.get u (userSockets st) = Some room.
Proof.
  unfold directed. destruct userId as [u|]; [|intros []].
  destruct (JsMap.get u (userSockets st)) as [room|] eqn:E; [|intros []].
  destruct (truthy room); [|intros []].
  intros [[= <- <-]|[]]. now exists u, room.
Qed.

(** Every emit of a handler is a broadcast, an answer to the socket the
    event came from, or addressed to the registry entry of the identity the
    handler routes by. *)
Lemma dest_of_handle st s ev d e :
  List.In (d, e) (output (handle s ev st)) ->
  d = io_emit \/ d = socket_emit s \/
  exists u room,
    d = io_to room /\ routing_identity st s ev = Some u /\
    JsMap.get u (userSockets st) = Some room.
Proof.
  assert (Hdir : forall userId x,
    routing_identity st s ev = userId ->
    List.In (d, e) (directed userId x st) ->
    d = io_emit \/ d = socket_emit s \/
    exists u room,
      d = io_to room /\ routing_identity st s ev = Some u /\
      JsMap.get u (userSockets st) = Some room).
  { intros userId x Hr Hin.
    destruct (In_directed _ _ _ _ _ Hin) as (u & room & -> & -> & Hg).
    right; right. now exists u, room. }
  destruct ev as [a|u|u a|x|dt|dt|dt|dt|dt [m|err]|]; simpl handle.
  - intros [].
  - rewrite on_user_connected_eq. unfold output; simpl.
    intros [[= <- _]|[[= <- _]|[[= <- _]|[]]]]; auto.
  - rewrite on_update_activity_eq. unfold output; simpl.
    intros [[= <- _]|[]]; auto.
  - unfold output; simpl. intros [[= <- _]|[]]; auto.
  - rewrite on_follow_request_eq. apply Hdir. reflexivity.
  - rewrite on_follow_accepted_eq. apply Hdir. reflexivity.
  - rewrite on_follow_back_request_eq. apply Hdir. reflexivity.
  - rewrite on_follow_back_available_eq. apply Hdir. reflexivity.
  - rewrite on_send_message_created_eq. unfold output; cbn [snd].
    intros Hin. apply in_app_or in Hin as [Hin|[[= <- _]|[]]]; [|auto].
    eapply Hdir; [reflexivity | exact Hin].
  - rewrite on_send_message_rejected_eq. unfold output; simpl.
    intros [[= <- _]|[]]; auto.
  - rewrite on_disconnect_eq.
    destruct (find_disconnected s (userSockets st)) as [u|]; unfold output; simpl;
      [|intros []].
    destruct (truthy u); [|intros []]. intros [[= <- _]|[]]; auto.
Qed.

Lemma delivered_only_broadcasts c out :
  (forall d e, List.In (d, e) out -> d = io_emit \/ reaches d c = false) ->
  delivered_to c out = broadcasts out.
Proof.
  unfold delivered_to, broadcasts.
  induction out as [|[d e] out IH]; intros H; simpl; [reflexivity|].
  assert (IH' := IH (fun d0 e0 Hin => H d0 e0 (or_intror Hin))).
  destruct (H d e (or_introl eq_refl)) as [->|Hd]; simpl.
  - now rewrite IH'.
  - rewrite Hd. destruct d; simpl in *; [discriminate | exact IH' | exact IH'].
Qed.

(** X12: a connection that is neither the one the event came from nor the
    registry entry of the identity the handler routes by receives from that
    handler its broadcasts and nothing else: directed events and answers to
    the sender never leak to a bystander. *)
Theorem bystander_hears_only_broadcasts st s ev c :
  c <> s ->
  (forall u,
     routing_identity st s ev = Some u ->
     JsMap.get u (userSockets st) <> Some c) ->
  delivered_to c (output (handle s ev st)) = broadcasts (output (handle s ev st)).
Proof.
  intros Hcs Hroute. apply delivered_only_broadcasts.
  intros d e Hin.
  destruct (dest_of_handle _ _ _ _ _ Hin) as [->|[->|(u & room & -> & Hr & Hg)]].
  - now left.
  - right. simpl. apply String.eqb_neq. congruence.
  - right. simpl. apply String.eqb_neq. intros ->. exact (Hroute u Hr Hg).
Qed.

Lemma bystander_hears_only_broadcasts_witness :
  "s3" <> "s1" /\
  (forall u,
     routing_identity Sample.two_online "s1"
       (Inbound.send_message Sample.hello_data (inl Sample.hello)) = Some u ->
     JsMap.get u (userSockets Sample.two_online) <> Some "s3") /\
  delivered_to "s3"
    (output (on_send_message "s1" Sample.hello_data (inl Sample.hello)
               Sample.two_online)) = [].
Proof.
  assert (H1 : "s3" <> "s1") by discriminate.
  assert (H2 : forall u,
     routing_identity Sample.two_online "s1"
       (Inbound.send_message Sample.hello_data (inl Sample.hello)) = Some u ->
     JsMap.get u (userSockets Sample.two_online) <> Some "s3").
  { intros u [= <-]. discriminate. }
  split; [exact H1|]. split; [exact H2|].
  exact (bystander_hears_only_broadcasts Sample.two_online "s1"
           (Inbound.send_message Sample.hello_data (inl Sample.hello)) "s3" H1 H2).
Defined.

(** X13: a reconnect is not undone by the old connection's late
    disconnect: when [c1] and then [c2] bind [u] and [c1] holds no other
    identity, the disconnect of [c1] changes nothing and broadcasts
    nothing; [u] stays online on [c2] with its "Idle" label. *)
Theorem late_disconnect_keeps_user_online st c1 c2 u :
  wf st ->
  c1 <> c2 ->
  (forall u', u' <> u -> JsMap.get u' (userSockets st) <> Some c1) ->
  let rebound :=
    run st [(c1, Inbound.user_connected u); (c2, Inbound.user_connected u)] in
  on_disconnect c1 rebound = (Normal tt, rebound, []) /\
  JsMap.get u (userSockets (step rebound (c1, Inbound.disconnect))) = Some c2 /\
  JsMap.get u (userActivities (step rebound (c1, Inbound.disconnect))) = Some "Idle".
Proof.
  intros Hwf Hne Hother rebound.
  assert (Hnd : NoDup (JsMap.keys (userSockets rebound))).
  { subst rebound. apply NoDup_run, (wf_sockets _ Hwf). }
  assert (Hus : userSockets rebound =
                JsMap.set u c2 (JsMap.set u c1 (userSockets st)))
    by reflexivity.
  assert (Hua : JsMap.get u (userActivities rebound) = Some "Idle").
  { subst rebound. simpl. unfold step, state_of. simpl. apply get_set_same. }
  assert (Hfree : forall u', JsMap.get u' (userSockets rebound) <> Some c1).
  { intros u'. rewrite Hus. destruct (String.eqb_spec u u') as [<-|Hu].
    - rewrite get_set_same. congruence.
    - rewrite !get_set_other by assumption. apply Hother. congruence. }
  assert (Hd : on_disconnect c1 rebound = (Normal tt, rebound, [])).
  { rewrite on_disconnect_eq.
    now rewrite (proj2 (find_disconnected_unbound c1 _ Hnd) Hfree). }
  split; [exact Hd|].
  unfold step. cbn [fst snd handle]. rewrite Hd.
  unfold state_of; cbn [fst snd]. split; [|exact Hua].
  rewrite Hus. apply get_set_same.
Qed.

Lemma late_disconnect_keeps_user_online_witness :
  wf initializeSocket /\ "c1" <> "c2" /\
  (forall u', u' <> "alice" ->
     JsMap.get u' (userSockets initializeSocket) <> Some "c1") /\
  JsMap.get "alice"
    (userSockets
       (run initializeSocket
          [("c1", Inbound.user_connected "alice");
           ("c2", Inbound.user_connected "alice"); ("c1", Inbound.disconnect)])) =
  Some "c2".
Proof.
  assert (H1 : "c1" <> "c2") by discriminate.
  assert (H2 : forall u', u' <> "alice" ->
     JsMap.get u' (userSockets initializeSocket) <> Some "c1")
    by (intros u' _; discriminate).
  split; [exact wf_initial|]. split; [exact H1|]. split; [exact H2|].
  exact (proj1 (proj2
    (late_disconnect_keeps_user_online initializeSocket "c1" "c2" "alice"
       wf_initial H1 H2))).
Defined.

(** * The album controller *)

Section AlbumControllerFacts.
Variable Album : Type.
Import AlbumController.
Implicit Types (store : Store Album).

(** X14: [getAlbumById] puts exactly one query to the store, [findById]
    with the songs populated; it answers 404 "Album not found" exactly when
    the store finds no album, 200 with the album exactly when the store
    finds it, and hands the error to [next] exactly when the store
    fails. *)
Theorem getAlbumById_outcome store albumId :
  let effects := getAlbumById store albumId in
  let found := run_findById Album store albumId ["songs"] in
  queries effects = [findById albumId ["songs"]] /\
  (forall status body,
     List.In (status_json status body) effects <->
     (found = inl None /\ status = 404 /\
      body = json_message "Album not found") \/
     (exists album,
        found = inl (Some album) /\ status = 200 /\ body = json_album album)) /\
  (forall error, List.In (next error) effects <-> found = inr error).
Proof.
  intros effects found. subst effects found. unfold getAlbumById.
  destruct (run_findById Album store albumId ["songs"]) as [[album|]|err]; simpl.
  - split; [reflexivity|]. split.
    + intros status body. split.
      * intros [H|[[= <- <-]|[]]]; [discriminate|]. right. now exists album.
      * intros [(H & _)|(a & [= <-] & -> & ->)]; [discriminate|]. right; now left.
    + intros error. split; [intros [H|[H|[]]]; discriminate | discriminate].
  - split; [reflexivity|]. split.
    + intros status body. split.
      * intros [H|[[= <- <-]|[]]]; [discriminate|]. now left.
      * intros [(_ & -> & ->)|(a & H & _)]; [right; now left | discriminate].
    + intros error. split; [intros [H|[H|[]]]; discriminate | discriminate].
  - split; [reflexivity|]. split.
    + intros status body. split.
      * intros [H|[H|[]]]; discriminate.
      * intros [(H & _)|(a & H & _)]; discriminate.
    + intros error. split.
      * intros [H|[[= ->]|[]]]; [discriminate | reflexivity].
      * intros [= ->]. right; now left.
Qed.

(** X15: [searchAlbums] answers 400 "Query parameter 'q' is required"
    without touching the store when [q] is missing or empty; the only query
    it ever issues is, for a non-empty [q], the case-insensitive match of
    [q] against title or artist limited to 10 albums; and a 400 is sent in
    no other case. *)
Theorem searchAlbums_requires_q store q :
  let effects := searchAlbums store q in
  (truthy_opt q = false ->
   effects =
   [status_json 400 (json_message "Query parameter 'q' is required")]) /\
  (forall x,
     List.In x (queries effects) ->
     exists p,
       q = Some p /\ p <> "" /\
       x = find (any_of [regex "title" p "i"; regex "artist" p "i"]) (Some 10)) /\
  (forall body,
     List.In (status_json 400 body) effects -> truthy_opt q = false).
Proof.
  intros effects. subst effects. unfold searchAlbums.
  destruct (truthy_opt q) eqn:Hq; simpl.
  - split; [discriminate|].
    destruct q as [p|]; [|discriminate]. simpl in Hq.
    assert (Hp : p <> "").
    { intros ->. discriminate. }
    split.
    + intros x Hx.
      destruct (run_find Album store _ (Some 10)); simpl in Hx;
        destruct Hx as [<-|[]]; now exists p.
    + intros body [H|H]; [discriminate|].
      destruct (run_find Album store _ (Some 10)); simpl in H;
        destruct H as [H|[]]; discriminate.
  - split; [reflexivity|]. split; [intros x []|reflexivity].
Qed.

(** X16: each of the three handlers finishes the request exactly once,
    whatever the store answers: it sends one response or calls [next] once,
    never both and never neither; and it puts at most one query to the
    store. *)
Theorem controller_finishes_once store :
  completions (getAllAlbums store) = 1 /\
  (forall albumId, completions (getAlbumById store albumId) = 1) /\
  (forall q, completions (searchAlbums store q) = 1) /\
  List.length (queries (getAllAlbums store)) = 1 /\
  (forall albumId, List.length (queries (getAlbumById store albumId)) = 1) /\
  (forall q, List.length (queries (searchAlbums store q)) <= 1).
Proof.
  unfold getAllAlbums, getAlbumById, searchAlbums, completions.
  repeat split; intros.
  - now destruct (run_find Album store everything None).
  - now destruct (run_findById Album store albumId ["songs"]) as [[a|]|e].
  - destruct (truthy_opt q); simpl; [|reflexivity].
    now destruct (run_find Album store _ (Some 10)).
  - now destruct (run_find Album store everything None).
  - now destruct (run_findById Album store albumId ["songs"]) as [[a|]|e].
  - destruct (truthy_opt q); simpl; [|lia].
    destruct (run_find Album store _ (Some 10)); simpl; lia.
Qed.

End AlbumControllerFacts.

(** * The reply preview *)

Lemma length_append s t :
  String.length (s ++ t) = String.length s + String.length t.
Proof. induction s as [|a s IH]; simpl; [reflexivity | now rewrite IH]. Qed.

Lemma length_substring0 n : forall s,
  String.length (String.substring 0 n s) = Nat.min n (String.length s).
Proof.
  induction n as [|n IH]; intros [|a s]; simpl; try reflexivity.
  now rewrite IH.
Qed.

Lemma substring0_short n : forall s,
  String.length s <= n -> String.substring 0 n s = s.
Proof.
  induction n as [|n IH]; intros [|a s]; simpl; intros H; try reflexivity.
  - lia.
  - f_equal. apply IH. lia.
Qed.

Lemma prefix_append s t : String.prefix s (s ++ t) = true.
Proof.
  induction s as [|a s IH]; simpl.
  - now destruct t.
  - destruct (Ascii.ascii_dec a a); [exact IH | congruence].
Qed.

(** X17: the reply preview is never longer than 53 code units: a content
    of at most 50 units is shown unchanged, a longer one is cut to exactly
    53 units, its first 50 followed by three dots; in both cases the
    preview starts with the first 50 units of the content. *)
Theorem replyPreview_bounded content :
  String.length (replyPreview content) =
    (if (50 <? String.length content)%nat then 53 else String.length content) /\
  String.length (replyPreview content) <= 53 /\
  (String.length content <= 50 -> replyPreview content = content) /\
  String.prefix (String.substring 0 50 content) (replyPreview content) = true.
Proof.
  unfold replyPreview.
  destruct (Nat.ltb_spec 50 (String.length content)) as [Hlong|Hshort].
  - assert (Hlen : String.length (String.substring 0 50 content ++ "...") = 53).
    { rewrite length_append, length_substring0. simpl String.length. lia. }
    repeat split.
    + exact Hlen.
    + rewrite Hlen. lia.
    + intros H. lia.
    + apply prefix_append.
  - split; [reflexivity|]. split; [lia|]. split; [reflexivity|].
    rewrite (substring0_short 50 content Hshort).
    clear. induction content as [|a s IH]; simpl; [reflexivity|].
    destruct (Ascii.ascii_dec a a); [exact IH | congruence].
Qed.
